(** * tea: the runtime core of a terminal UI framework (Elm architecture)

    A shallow embedding of [tea.go]: the [Batch] constructor, the renderer
    [render] with its frame cache, and [Start], whose goroutines (the main
    loop, the input feeder, the command dispatcher and one task per command)
    are modelled as a scheduler-driven step function over unbuffered
    channels. *)

From Stdlib Require Import String Ascii.
From stdpp Require Import base tactics option list.

Local Open Scope string_scope.
Local Open Scope list_scope.

(** ** The two functions of Go's [strings] package that [render] uses *)

Module Strings.

(** [HasPrefix s prefix]: does [s] start with [prefix]? *)
Fixpoint HasPrefix (s prefix : string) : bool :=
  match prefix, s with
  | EmptyString, _ => true
  | String _ _, EmptyString => false
  | String a prefix', String b s' => Ascii.eqb a b && HasPrefix s' prefix'
  end.

(** The scan shared by [Count] and [Replace]: [skip] is the number of
    bytes of the current match of [substr] still to step over, so that
    matches do not overlap. *)
Fixpoint count_from (skip : nat) (s substr : string) : nat :=
  match s with
  | EmptyString => 0
  | String _ s' =>
      match skip with
      | S k => count_from k s' substr
      | O =>
          if HasPrefix s substr
          then S (count_from (String.length substr - 1) s' substr)
          else count_from 0 s' substr
      end
  end.

(** [strings.Count(s, substr)]: the number of non-overlapping instances
    of a non-empty [substr] in [s]. *)
Definition Count (s substr : string) : nat := count_from 0 s substr.

Fixpoint replace_from (skip : nat) (s old new : string) : string :=
  match s with
  | EmptyString => EmptyString
  | String c s' =>
      match skip with
      | S k => replace_from k s' old new
      | O =>
          if HasPrefix s old
          then String.append new (replace_from (String.length old - 1) s' old new)
          else String c (replace_from 0 s' old new)
      end
  end.

(** [strings.Replace(s, old, new, -1)]: every non-overlapping instance of
    a non-empty [old] replaced by [new]. *)
Definition Replace (s old new : string) : string := replace_from 0 s old new.

End Strings.

(** The line breaks the renderer deals with: the unix newline and the
    carriage-return newline ("\n" and "\r\n" in the source). *)
Definition LF : string := String "010" EmptyString.
Definition CRLF : string := String "013" (String "010" EmptyString).

(** ** Messages, commands and programs *)

Section Tea.

(** [Model] and the application's own messages are [interface{}] values
    the runtime never inspects; [Key] is what [ReadKey] decodes and [Err]
    stands for Go's [error] values.  [ReadKey], [initTerminal] and
    [restoreTerminal] are defined elsewhere in the package: what they
    return is an input of the execution, and their calls are recorded. *)
Context {Model AppMsg Key Err : Type}.

(** [Msg] is [interface{}]: the loop tells [quitMsg] and [batchMsg] from
    everything else by a type assertion; [appMsg] stands for every other
    dynamic type, the nil interface included.  [Cmd] is [func() Msg], and
    may be nil; a command that is called returns its message. *)
Inductive Msg : Type :=
| quitMsg
| batchMsg (cmds : list Cmd)
| KeyMsg (k : Key)
| appMsg (a : AppMsg)
with Cmd : Type :=
| nilCmd
| funcCmd (f : unit -> Msg).

(** [Batch(cmds ...Cmd) Cmd] *)
Definition Batch (cmds : list Cmd) : Cmd :=
  if Nat.eqb (length cmds) 0 then nilCmd
  else funcCmd (fun _ => batchMsg cmds).

(** [Quit() Msg] *)
Definition Quit (_ : unit) : Msg := quitMsg.

(** [Program]; the mutex only guards the terminal writes of [render],
    which a single goroutine performs, and is left out. *)
Record Program : Type := mkProgram {
  init : unit -> Model * Cmd;
  update : Msg -> Model -> Model * Cmd;
  view : Model -> string;
  currentRender : string;
}.

(** [NewProgram]: [currentRender] gets Go's zero value, the empty
    string. *)
Definition NewProgram (i : unit -> Model * Cmd)
    (u : Msg -> Model -> Model * Cmd) (v : Model -> string) : Program :=
  {| init := i; update := u; view := v; currentRender := EmptyString |}.

(** What [render] sends to the terminal. *)
Inductive TermOp : Type :=
| ClearLines (n : nat)
| WriteString (s : string).

Definition is_write (op : TermOp) : bool :=
  match op with WriteString _ => true | ClearLines _ => false end.

Definition set_currentRender (p : Program) (s : string) : Program :=
  {| init := init p; update := update p; view := view p;
     currentRender := s |}.

(** [func (p *Program) render(model Model)]: the program after the call
    and the terminal operations issued, in order. *)
Definition render (p : Program) (model : Model) : Program * list TermOp :=
  let view0 := view p model in
  if String.eqb view0 (currentRender p) then (p, [])
  else
    let p := set_currentRender p view0 in
    let linesRendered := Strings.Count (currentRender p) CRLF in
    let view1 := Strings.Replace view0 LF CRLF in
    (p, (if Nat.ltb 0 linesRendered then [ClearLines linesRendered] else [])
          ++ [WriteString view1]).

(** ** [Start]: goroutines over unbuffered channels

    [Start] runs four kinds of goroutines: the one that called it (the
    main loop), the input feeder, the command dispatcher, and one task
    per command (plus the task that hands over the initial command).
    They meet on the unbuffered channels [cmds], [msgs] and [errs]: a
    send completes only together with the matching receive.  [msgs] and
    [errs] are received by the loop's [select] only, [cmds] by the
    dispatcher's [select] only. *)

Inductive Tid : Type :=
| TMain
| TFeeder
| TDispatcher
| TTask (i : nat).

(** What an execution leaves behind, in order of occurrence. *)
Inductive Event : Type :=
| EvInitTerminal (r : option Err)       (* initTerminal() returned r *)
| EvRestoreTerminal                     (* restoreTerminal() ran *)
| EvReturn (r : option Err)             (* Start returned r *)
| EvTerm (op : TermOp)                  (* render touched the terminal *)
| EvReadKey (k : Key) (r : option Err)  (* ReadKey returned (k, r) *)
| EvErr (e : Err)                       (* the loop received e from errs *)
| EvMsg (from : Tid) (msg : Msg)        (* the loop received msg from msgs *)
| EvUpdate (msg : Msg) (model : Model)  (* p.update(msg, model) was called *)
| EvCmd (from : Tid) (cmd : Cmd)        (* the dispatcher received cmd from cmds *)
| EvGo (from : Tid) (cmd : Cmd)         (* ... and started a task for it *)
| EvCall (i : nat) (cmd : Cmd).         (* task i called cmd() *)

(** Where the goroutine that called [Start] stands. *)
Inductive Main : Type :=
| MStart                                (* before initTerminal() *)
| MInit                                 (* raw mode entered, before p.init() *)
| MRender0 (model : Model)              (* before the initial p.render(model) *)
| MSelect (model : Model)               (* waiting in the loop's select *)
| MBatch (model : Model) (rest : list Cmd)  (* in the range loop over a batch *)
| MSendCmd (model : Model) (cmd : Cmd)  (* after p.update, at cmds <- cmd *)
| MRender (model : Model)               (* before p.render(model) *)
| MDeferred (r : option Err)            (* returning r: deferred calls pending *)
| MReturned (r : option Err).

(** The goroutine subscribed to user input. *)
Inductive Feeder : Type :=
| FIdle                                 (* not started yet *)
| FReadKey                              (* at ReadKey(os.Stdin) *)
| FSendErr (k : Key) (e : Err)          (* at errs <- err *)
| FSendMsg (k : Key).                   (* at msgs <- KeyMsg(msg) *)

(** The goroutine that processes commands. *)
Inductive Dispatcher : Type :=
| DIdle
| DSelect
| DReturned.

(** The short-lived goroutines. *)
Inductive Task : Type :=
| TSendCmd (cmd : Cmd)                  (* the initial command, at cmds <- cmd *)
| TCall (cmd : Cmd)                     (* before cmd() *)
| TSendMsg (msg : Msg)                  (* at msgs <- (the result of cmd()) *)
| TDone
| TPanic.                               (* called a nil func *)

Record State : Type := mkState {
  prog : Program;                       (* p *)
  main : Main;
  feeder : Feeder;
  dispatcher : Dispatcher;
  tasks : list Task;
  done : bool;                          (* has done been closed? *)
  tty : option Err;                     (* what initTerminal() returns *)
  stdin : list (Key * option Err);      (* what the next ReadKey calls return *)
  trace : list Event;
}.

Definition set_prog (x : Program) (s : State) : State :=
  mkState x (main s) (feeder s) (dispatcher s) (tasks s) (done s) (tty s)
    (stdin s) (trace s).
Definition set_main (x : Main) (s : State) : State :=
  mkState (prog s) x (feeder s) (dispatcher s) (tasks s) (done s) (tty s)
    (stdin s) (trace s).
Definition set_feeder (x : Feeder) (s : State) : State :=
  mkState (prog s) (main s) x (dispatcher s) (tasks s) (done s) (tty s)
    (stdin s) (trace s).
Definition set_dispatcher (x : Dispatcher) (s : State) : State :=
  mkState (prog s) (main s) (feeder s) x (tasks s) (done s) (tty s)
    (stdin s) (trace s).
Definition set_tasks (x : list Task) (s : State) : State :=
  mkState (prog s) (main s) (feeder s) (dispatcher s) x (done s) (tty s)
    (stdin s) (trace s).
Definition close_done (s : State) : State :=
  mkState (prog s) (main s) (feeder s) (dispatcher s) (tasks s) true (tty s)
    (stdin s) (trace s).
Definition set_stdin (x : list (Key * option Err)) (s : State) : State :=
  mkState (prog s) (main s) (feeder s) (dispatcher s) (tasks s) (done s)
    (tty s) x (trace s).
Definition emit (evs : list Event) (s : State) : State :=
  mkState (prog s) (main s) (feeder s) (dispatcher s) (tasks s) (done s)
    (tty s) (stdin s) (trace s ++ evs).

(** The body of [case msg := <-msgs] for a message sent by [from]. *)
Definition loop_msg (from : Tid) (msg : Msg) (model : Model) (s : State)
    : State :=
  match msg with
  | quitMsg =>
      set_main (MDeferred None) (close_done (emit [EvMsg from msg] s))
  | batchMsg batchedCmds =>
      set_main (MBatch model batchedCmds) (emit [EvMsg from msg] s)
  | _ =>
      let '(model', cmd) := update (prog s) msg model in
      set_main (MSendCmd model' cmd)
        (emit [EvMsg from msg; EvUpdate msg model] s)
  end.

(** [msgs <- msg]: completes only while the loop waits in its select. *)
Definition send_msgs (from : Tid) (msg : Msg) (s : State) : option State :=
  match main s with
  | MSelect model => Some (loop_msg from msg model s)
  | _ => None
  end.

(** [errs <- err], received by [case err := <-errs]. *)
Definition send_errs (e : Err) (s : State) : option State :=
  match main s with
  | MSelect _ =>
      Some (set_main (MDeferred (Some e)) (close_done (emit [EvErr e] s)))
  | _ => None
  end.

(** [cmds <- cmd], received by the dispatcher's [case cmd := <-cmds],
    whose body starts a task unless [cmd] is nil. *)
Definition send_cmds (from : Tid) (cmd : Cmd) (s : State) : option State :=
  match dispatcher s with
  | DSelect =>
      Some match cmd with
           | nilCmd => emit [EvCmd from cmd] s
           | funcCmd _ =>
               set_tasks (tasks s ++ [TCall cmd])
                 (emit [EvCmd from cmd; EvGo from cmd] s)
           end
  | _ => None
  end.

Definition step_main (s : State) : option State :=
  match main s with
  | MStart =>
      match tty s with
      | Some e =>
          Some (set_main (MReturned (Some e))
                  (emit [EvInitTerminal (Some e); EvReturn (Some e)] s))
      | None => Some (set_main MInit (emit [EvInitTerminal None] s))
      end
  | MInit =>
      let '(model, cmd) := init (prog s) () in
      Some (set_main (MRender0 model)
              match cmd with
              | nilCmd => s
              | funcCmd _ => set_tasks (tasks s ++ [TSendCmd cmd]) s
              end)
  | MRender0 model =>
      let '(p, ops) := render (prog s) model in
      Some (set_main (MSelect model)
              (set_dispatcher DSelect
                 (set_feeder FReadKey
                    (set_prog p (emit (map EvTerm ops) s)))))
  | MSelect _ => None
  | MBatch model [] => Some (set_main (MSelect model) s)
  | MBatch model (cmd :: rest) =>
      set_main (MBatch model rest) <$> send_cmds TMain cmd s
  | MSendCmd model cmd =>
      set_main (MRender model) <$> send_cmds TMain cmd s
  | MRender model =>
      let '(p, ops) := render (prog s) model in
      Some (set_main (MSelect model) (set_prog p (emit (map EvTerm ops) s)))
  | MDeferred r =>
      Some (set_main (MReturned r) (emit [EvRestoreTerminal; EvReturn r] s))
  | MReturned _ => None
  end.

(** [ReadKey] blocks while there is no input. *)
Definition step_feeder (s : State) : option State :=
  match feeder s with
  | FIdle => None
  | FReadKey =>
      match stdin s with
      | [] => None
      | (k, r) :: rest =>
          Some (set_feeder
                  match r with
                  | Some e => FSendErr k e
                  | None => FSendMsg k
                  end
                  (set_stdin rest (emit [EvReadKey k r] s)))
      end
  | FSendErr k e => set_feeder (FSendMsg k) <$> send_errs e s
  | FSendMsg k => set_feeder FReadKey <$> send_msgs TFeeder (KeyMsg k) s
  end.

(** The dispatcher's own move is [case <-done: return]; its other case
    is taken by whoever sends on [cmds]. *)
Definition step_dispatcher (s : State) : option State :=
  match dispatcher s with
  | DSelect => if done s then Some (set_dispatcher DReturned s) else None
  | _ => None
  end.

Definition finish (i : nat) (s : State) : State :=
  set_tasks (<[i := TDone]> (tasks s)) s.

Definition step_task (i : nat) (s : State) : option State :=
  match tasks s !! i with
  | Some (TSendCmd cmd) => finish i <$> send_cmds (TTask i) cmd s
  | Some (TCall cmd) =>
      Some (set_tasks
              (<[i := match cmd with
                      | funcCmd f => TSendMsg (f ())
                      | nilCmd => TPanic
                      end]> (tasks s))
              (emit [EvCall i cmd] s))
  | Some (TSendMsg msg) => finish i <$> send_msgs (TTask i) msg s
  | Some TDone | Some TPanic | None => None
  end.

(** One move of the goroutine the scheduler picks; [None] when that
    goroutine is blocked or gone. *)
Definition step (t : Tid) (s : State) : option State :=
  match t with
  | TMain => step_main s
  | TFeeder => step_feeder s
  | TDispatcher => step_dispatcher s
  | TTask i => step_task i s
  end.

Fixpoint run (sched : list Tid) (s : State) : option State :=
  match sched with
  | [] => Some s
  | t :: sched' =>
      match step t s with
      | Some s' => run sched' s'
      | None => None
      end
  end.

(** The state in which [p.Start()] is entered. *)
Definition Start_state (p : Program) (raw : option Err)
    (keys : list (Key * option Err)) : State :=
  {| prog := p; main := MStart; feeder := FIdle; dispatcher := DIdle;
     tasks := []; done := false; tty := raw; stdin := keys; trace := [] |}.

(** [p.Start()] under the schedule [sched]. *)
Definition Start (p : Program) (raw : option Err)
    (keys : list (Key * option Err)) (sched : list Tid) : option State :=
  run sched (Start_state p raw keys).

(** ** Reading a trace *)

Definition writes (ops : list TermOp) : nat :=
  length (List.filter is_write ops).

Definition is_restore (ev : Event) : bool :=
  match ev with EvRestoreTerminal => true | _ => false end.

Definition restores (tr : list Event) : nat :=
  length (List.filter is_restore tr).




Definition is_update (ev : Event) : bool :=
  match ev with EvUpdate _ _ => true | _ => false end.

Definition is_quit (ev : Event) : bool :=
  match ev with EvMsg _ quitMsg => true | _ => false end.

(** Did the loop's select receive something? *)
Definition is_recv (ev : Event) : bool :=
  match ev with EvMsg _ _ | EvErr _ => true | _ => false end.

(** The messages the loop received, in order of delivery. *)
Fixpoint delivered (tr : list Event) : list Msg :=
  match tr with
  | [] => []
  | EvMsg _ msg :: tr' => msg :: delivered tr'
  | _ :: tr' => delivered tr'
  end.

(** Neither the quit signal nor a batch signal. *)
Definition ordinary (msg : Msg) : bool :=
  match msg with quitMsg | batchMsg _ => false | _ => true end.

(** The commands the loop handed over on [cmds] before its select
    received again. *)
Fixpoint loop_cmds (tr : list Event) : list Cmd :=
  match tr with
  | [] => []
  | EvMsg _ _ :: _ | EvErr _ :: _ => []
  | EvCmd TMain cmd :: tr' => cmd :: loop_cmds tr'
  | _ :: tr' => loop_cmds tr'
  end.

(** The commands among them for which the dispatcher started a task. *)
Fixpoint loop_gos (tr : list Event) : list Cmd :=
  match tr with
  | [] => []
  | EvMsg _ _ :: _ | EvErr _ :: _ => []
  | EvGo TMain cmd :: tr' => cmd :: loop_gos tr'
  | _ :: tr' => loop_gos tr'
  end.

Definition is_func (cmd : Cmd) : bool :=
  match cmd with funcCmd _ => true | nilCmd => false end.

(** The model variable of [Start], once [p.init] has set it and while
    the loop runs. *)
Definition main_model (m : Main) : option Model :=
  match m with
  | MRender0 model | MSelect model | MBatch model _ | MSendCmd model _
  | MRender model => Some model
  | MStart | MInit | MDeferred _ | MReturned _ => None
  end.

(** The first event of a trace that satisfies [P], with what follows it. *)
Fixpoint split_first (P : Event -> bool) (tr : list Event)
    : option (Event * list Event) :=
  match tr with
  | [] => None
  | ev :: tr' => if P ev then Some (ev, tr') else split_first P tr'
  end.

(** ** What holds of the goroutines at every point of [Start] *)

Definition wf (s : State) : Prop :=
  match main s with
  | MStart =>
      feeder s = FIdle /\ dispatcher s = DIdle /\ done s = false /\
      tasks s = [] /\ trace s = []
  | MInit =>
      feeder s = FIdle /\ dispatcher s = DIdle /\ done s = false /\
      tty s = None /\ tasks s = [] /\ trace s = [EvInitTerminal None]
  | MRender0 _ =>
      feeder s = FIdle /\ dispatcher s = DIdle /\ done s = false /\
      tty s = None /\ trace s = [EvInitTerminal None] /\
      (tasks s = [] \/ exists cmd, tasks s = [TSendCmd cmd])
  | MSelect _ | MBatch _ _ | MSendCmd _ _ | MRender _ =>
      dispatcher s = DSelect /\ done s = false /\ tty s = None
  | MDeferred _ => done s = true /\ tty s = None
  | MReturned r =>
      (done s = true /\ tty s = None) \/
      (exists e, tty s = Some e /\ r = Some e /\ feeder s = FIdle /\
                 dispatcher s = DIdle /\ tasks s = [] /\
                 trace s = [EvInitTerminal (Some e); EvReturn (Some e)])
  end.

(** While [Start] has not returned the terminal has not been restored;
    once it has returned from the loop, it was restored once, right
    before. *)
Definition restored_on_return (s : State) : Prop :=
  match main s with
  | MReturned r =>
      exists pre post,
        trace s = pre ++ [EvRestoreTerminal; EvReturn r] ++ post /\
        restores pre = 0 /\ restores post = 0
  | _ => restores (trace s) = 0
  end.

(** The transition function as a step of a fold over messages. *)
Definition transition (p : Program) (model : Model) (msg : Msg) : Model :=
  fst (update p msg model).

(** The model held by [Start] is the fold of the transition function over
    the ordinary messages delivered so far; [p] is the program [Start] was
    called on. *)
Definition model_is_fold (p : Program) (s : State) : Prop :=
  update (prog s) = update p /\ init (prog s) = init p /\
  forall model,
    main_model (main s) = Some model ->
    model = fold_left (transition p)
              (List.filter ordinary (delivered (trace s)))
              (fst (init p ())).

(** After the loop has received the quit message nothing is received or
    updated any more, and [Start] is returning nil. *)
Definition quiet_after_quit (ev : Event) : Prop :=
  is_update ev = false /\ is_recv ev = false.

Definition quit_ends (s : State) : Prop :=
  match split_first is_quit (trace s) with
  | None => True
  | Some (_, post) =>
      Forall quiet_after_quit post /\
      (main s = MDeferred None \/ main s = MReturned None)
  end.



(** Tasks are started for non-nil commands the dispatcher received, only
    started tasks call their command, and what a task delivers is the
    result of that call. *)
Definition started_ok (tr : list Event) (from : Tid) (cmd : Cmd) : Prop :=
  cmd <> nilCmd /\ In (EvCmd from cmd) tr.

Definition called_ok (tr : list Event) (cmd : Cmd) : Prop :=
  cmd <> nilCmd /\ exists from, In (EvGo from cmd) tr.

Definition result_ok (tr : list Event) (i : nat) (msg : Msg) : Prop :=
  exists f, msg = f () /\ In (EvCall i (funcCmd f)) tr.

Definition task_ok (tr : list Event) (i : nat) (task : Task) : Prop :=
  match task with
  | TCall cmd => called_ok tr cmd
  | TSendMsg msg => result_ok tr i msg
  | TPanic => False
  | TSendCmd _ | TDone => True
  end.

Definition funcs_run (tr : list Event) (tk : list Task) : Prop :=
  (forall from cmd, In (EvGo from cmd) tr -> started_ok tr from cmd) /\
  (forall i cmd, In (EvCall i cmd) tr -> called_ok tr cmd) /\
  (forall i msg, In (EvMsg (TTask i) msg) tr -> result_ok tr i msg) /\
  (forall i task, tk !! i = Some task -> task_ok tr i task).

Definition only_funcs_run (s : State) : Prop :=
  funcs_run (trace s) (tasks s).

(** Was the transition function called on a batch signal? *)
Definition is_batch_update (ev : Event) : bool :=
  match ev with EvUpdate (batchMsg _) _ => true | _ => false end.

(** What handing [cmd] over to the dispatcher leaves in the trace. *)
Definition hand_over (from : Tid) (cmd : Cmd) : list Event :=
  EvCmd from cmd :: if is_func cmd then [EvGo from cmd] else [].

(** Where the loop stands with a batch it received: what it has handed
    over since, followed by what is left of its range loop, is the list
    the batch message carried; and a task was started for each non-nil
    command handed over. *)
Definition batch_progress (s : State) (l : list Cmd) (post : list Event)
    : Prop :=
  loop_gos post = List.filter is_func (loop_cmds post) /\
  if existsb is_recv post then loop_cmds post = l
  else
    match main s with
    | MBatch _ rest => loop_cmds post ++ rest = l
    | MSelect _ => loop_cmds post = l
    | _ => False
    end.

Definition batch_fanned_out (s : State) : Prop :=
  forall pre from l post,
    trace s = pre ++ EvMsg from (batchMsg l) :: post ->
    batch_progress s l post.

End Tea.

Arguments Msg : clear implicits.
Arguments Cmd : clear implicits.
Arguments Program : clear implicits.
Arguments Event : clear implicits.
Arguments Main : clear implicits.
Arguments Feeder : clear implicits.
Arguments Task : clear implicits.
Arguments State : clear implicits.

(** ** More readings of a trace, and what the loop is expected to leave *)

Section Observations.

Context {Model AppMsg Key Err : Type}.

(** The frames written to the terminal, in order. *)
Fixpoint written (tr : list (Event Model AppMsg Key Err)) : list string :=
  match tr with
  | [] => []
  | EvTerm (WriteString s) :: tr' => s :: written tr'
  | _ :: tr' => written tr'
  end.

(** The calls of [p.update], with their arguments. *)
Fixpoint updates (tr : list (Event Model AppMsg Key Err))
    : list (Msg AppMsg Key * Model) :=
  match tr with
  | [] => []
  | EvUpdate msg model :: tr' => (msg, model) :: updates tr'
  | _ :: tr' => updates tr'
  end.

(** What [ReadKey] returned, call after call. *)
Fixpoint reads (tr : list (Event Model AppMsg Key Err))
    : list (Key * option Err) :=
  match tr with
  | [] => []
  | EvReadKey k r :: tr' => (k, r) :: reads tr'
  | _ :: tr' => reads tr'
  end.

(** The keys the feeder delivered to the loop. *)
Fixpoint feeder_keys (tr : list (Event Model AppMsg Key Err)) : list Key :=
  match tr with
  | [] => []
  | EvMsg TFeeder (KeyMsg k) :: tr' => k :: feeder_keys tr'
  | _ :: tr' => feeder_keys tr'
  end.

(** The key the feeder holds and has not delivered. *)
Definition feeder_pending (f : Feeder Key Err) : list Key :=
  match f with
  | FSendErr k _ | FSendMsg k => [k]
  | FIdle | FReadKey => []
  end.

(** The calls of [update] that a sequence of ordinary messages makes from
    [model] on. *)
Fixpoint transitions (p : Program Model AppMsg Key) (model : Model)
    (msgs : list (Msg AppMsg Key)) : list (Msg AppMsg Key * Model) :=
  match msgs with
  | [] => []
  | msg :: msgs' =>
      (msg, model) :: transitions p (transition p model msg) msgs'
  end.

(** The models [Start] goes through: [model], then the one after each
    message. *)
Fixpoint models_from (p : Program Model AppMsg Key) (model : Model)
    (msgs : list (Msg AppMsg Key)) : list Model :=
  model ::
  match msgs with
  | [] => []
  | msg :: msgs' => models_from p (transition p model msg) msgs'
  end.

(** What rendering the frames [views] one after the other writes, when
    [cache] is the cached frame: a frame equal to the cached one is
    skipped, the others are written with their newlines normalised. *)
Fixpoint frames (cache : string) (views : list string) : list string :=
  match views with
  | [] => []
  | v :: views' =>
      if String.eqb v cache then frames cache views'
      else Strings.Replace v LF CRLF :: frames v views'
  end.

(** Has the goroutine of [Start] a model whose render is still due? *)
Definition render_due (m : Main Model AppMsg Key Err) : bool :=
  match m with
  | MRender0 _ | MSendCmd _ _ | MRender _ => true
  | _ => false
  end.

(** Has [Start] got past the initial render? *)
Definition rendering (m : Main Model AppMsg Key Err) : bool :=
  match m with
  | MStart | MInit => false
  | _ => true
  end.

(** Is [Start] before its loop, the feeder and the dispatcher not yet
    started? *)
Definition starting (m : Main Model AppMsg Key Err) : bool :=
  match m with
  | MStart | MInit | MRender0 _ => true
  | _ => false
  end.

(** Is [Start] inside its loop? *)
Definition looping (m : Main Model AppMsg Key Err) : bool :=
  match m with
  | MSelect _ | MBatch _ _ | MSendCmd _ _ | MRender _ => true
  | _ => false
  end.

Definition is_return (ev : Event Model AppMsg Key Err) : bool :=
  match ev with EvReturn _ => true | _ => false end.

(** What can still happen once [Start] has returned: reads, and the
    moves of command tasks. *)
Definition after_return (ev : Event Model AppMsg Key Err) : bool :=
  match ev with
  | EvReadKey _ _ | EvCmd (TTask _) _ | EvGo (TTask _) _ | EvCall _ _ => true
  | _ => false
  end.

Definition is_cmd (ev : Event Model AppMsg Key Err) : bool :=
  match ev with EvCmd _ _ => true | _ => false end.

Definition is_go (ev : Event Model AppMsg Key Err) : bool :=
  match ev with EvGo _ _ => true | _ => false end.

Definition is_call (ev : Event Model AppMsg Key Err) : bool :=
  match ev with EvCall _ _ => true | _ => false end.

Definition is_task_msg (ev : Event Model AppMsg Key Err) : bool :=
  match ev with EvMsg (TTask _) _ => true | _ => false end.

Definition count_ev (P : Event Model AppMsg Key Err -> bool)
    (tr : list (Event Model AppMsg Key Err)) : nat :=
  length (List.filter P tr).

Definition at_call (task : Task AppMsg Key) : bool :=
  match task with TCall _ => true | _ => false end.

Definition at_send_msg (task : Task AppMsg Key) : bool :=
  match task with TSendMsg _ => true | _ => false end.

Definition panicked (task : Task AppMsg Key) : bool :=
  match task with TPanic => true | _ => false end.

Definition count_task (P : Task AppMsg Key -> bool)
    (tk : list (Task AppMsg Key)) : nat :=
  length (List.filter P tk).

(** ** More invariants of [Start] *)

(** [Start] only ever touches the frame cache of the program. *)
Definition prog_fixed (p : Program Model AppMsg Key)
    (s : State Model AppMsg Key Err) : Prop :=
  init (prog s) = init p /\ update (prog s) = update p /\
  view (prog s) = view p.

(** While the loop waits or fans a batch out, the cached frame is the
    view of its model. *)
Definition cache_in_sync (s : State Model AppMsg Key Err) : Prop :=
  match main s with
  | MSelect model | MBatch model _ =>
      currentRender (prog s) = view (prog s) model
  | _ => True
  end.

(** What [Start] is returning has a cause in the trace: nil a quit
    message, an error the failure of [initTerminal] or of a read. *)
Definition return_caused (s : State Model AppMsg Key Err) : Prop :=
  (forall k e, feeder s = FSendErr k e -> In (k, Some e) (reads (trace s))) /\
  match main s with
  | MDeferred r | MReturned r =>
      match r with
      | None => exists from, In (EvMsg from quitMsg) (trace s)
      | Some e => tty s = Some e \/ exists k, In (k, Some e) (reads (trace s))
      end
  | _ => True
  end.

(** The reads consume the input in order, and the feeder passes the keys
    on in the order read. *)
Definition keys_in_order (keys : list (Key * option Err))
    (s : State Model AppMsg Key Err) : Prop :=
  reads (trace s) ++ stdin s = keys /\
  feeder_keys (trace s) ++ feeder_pending (feeder s)
  = map fst (reads (trace s)).

(** Once [Start] has returned, only reads and command tasks move. *)
Definition quiet_after_return (s : State Model AppMsg Key Err) : Prop :=
  match split_first is_return (trace s) with
  | None => forall r, main s <> MReturned r
  | Some (EvReturn r, post) =>
      Forall (fun ev => after_return ev = true) post /\
      main s = MReturned r
  | Some _ => False
  end.

(** [update] has been called once for each ordinary message delivered,
    in the order of delivery, each time on the model the messages before
    it led to. *)
Definition updates_follow (p : Program Model AppMsg Key)
    (s : State Model AppMsg Key Err) : Prop :=
  updates (trace s)
  = transitions p (fst (init p ()))
      (List.filter ordinary (delivered (trace s))).

(** The models rendered so far: all that [Start] went through, but the
    one whose render is due. *)
Definition rendered (p : Program Model AppMsg Key)
    (s : State Model AppMsg Key Err) : list Model :=
  let all := models_from p (fst (init p ()))
               (List.filter ordinary (delivered (trace s))) in
  if render_due (main s) then List.removelast all else all.

(** What has been written is what rendering those models one after the
    other writes, from the cache [Start] found; the cache holds the last
    of their frames. *)
Definition frames_follow (p : Program Model AppMsg Key)
    (s : State Model AppMsg Key Err) : Prop :=
  if rendering (main s)
  then written (trace s)
       = frames (currentRender p) (map (view p) (rendered p s)) /\
       currentRender (prog s)
       = List.last (map (view p) (rendered p s)) (currentRender p)
  else written (trace s) = [] /\ currentRender (prog s) = currentRender p.

(** Every task the dispatcher started has called its command or is about
    to; every call has delivered its result or is about to (or found a nil
    function); and a task is started only for a command received. *)
Definition tasks_accounted (s : State Model AppMsg Key Err) : Prop :=
  count_ev is_go (trace s)
  = count_ev is_call (trace s) + count_task at_call (tasks s) /\
  count_ev is_call (trace s)
  = count_ev is_task_msg (trace s) + count_task at_send_msg (tasks s)
    + count_task panicked (tasks s) /\
  count_ev is_go (trace s) <= count_ev is_cmd (trace s).

(** The feeder and the dispatcher are started together, and [done] is
    closed only when raw mode was entered. *)
Definition goroutines_paired (s : State Model AppMsg Key Err) : Prop :=
  (feeder s = FIdle <-> dispatcher s = DIdle) /\
  (done s = true -> tty s = None).

End Observations.

(** Is every newline of [s] preceded by a carriage return?  [after_cr]
    tells whether the byte before [s] is one. *)
Fixpoint lf_follows_cr (after_cr : bool) (s : string) : bool :=
  match s with
  | EmptyString => true
  | String c s' =>
      if Ascii.eqb c "010" then after_cr && lf_follows_cr false s'
      else lf_follows_cr (Ascii.eqb c "013") s'
  end.

(** Does the byte [c] occur in [s]? *)
Fixpoint has_byte (c : ascii) (s : string) : bool :=
  match s with
  | EmptyString => false
  | String c' s' => Ascii.eqb c c' || has_byte c s'
  end.

(** ** A small program to run the definitions on

    The model is a counter.  Key 0 increments it, key 1 answers with the
    [Quit] command, key 2 with a batch of three commands (one of them nil);
    an application message adds its payload. *)

Module Demo.

Definition digit (n : nat) : string :=
  String (ascii_of_nat (48 + n)) EmptyString.

Definition add7 : Cmd nat nat := funcCmd (fun _ => appMsg 7).

Definition update (msg : Msg nat nat) (model : nat) : nat * Cmd nat nat :=
  match msg with
  | KeyMsg 0 => (S model, nilCmd)
  | KeyMsg 1 => (model, funcCmd Quit)
  | KeyMsg 2 => (model, Batch [add7; nilCmd; funcCmd Quit])
  | appMsg a => (model + a, nilCmd)
  | _ => (model, nilCmd)
  end.

Definition counter : Program nat nat nat :=
  NewProgram (fun _ => (0, nilCmd)) update digit.

(** A program whose frame is always the empty string. *)
Definition blank : Program nat nat nat :=
  NewProgram (fun _ => (0, nilCmd)) update (fun _ => EmptyString).

(** A program that has "a\nb" on the screen and now shows its model. *)
Definition two_lines : Program nat nat nat :=
  set_currentRender counter (String.concat "" ["a"; LF; "b"]).

Definition ok (k : nat) : nat * option nat := (k, None).

Definition batch3 : list (Cmd nat nat) := [add7; nilCmd; funcCmd Quit].

(** initTerminal, init, initial render, then: read key 0, deliver it, hand
    the nil command to the dispatcher, render. *)
Definition sched_increment : list Tid :=
  [TMain; TMain; TMain; TFeeder; TFeeder; TMain; TMain].

(** Two increments, then key 1: its command is started, called, and
    delivers the quit message; [Start] returns. *)
Definition sched_quit : list Tid :=
  sched_increment ++ [TFeeder; TFeeder; TMain; TMain]
  ++ [TFeeder; TFeeder; TMain; TMain; TTask 0; TTask 0; TMain].

(** Key 1 alone, up to the return of [Start]. *)
Definition sched_key_quit : list Tid :=
  [TMain; TMain; TMain; TFeeder; TFeeder; TMain; TMain; TTask 0; TTask 0;
   TMain].

Definition trace_key_quit : list (Event nat nat nat nat) :=
  [EvInitTerminal None; EvTerm (WriteString (digit 0)); EvReadKey 1 None;
   EvMsg TFeeder (KeyMsg 1); EvUpdate (KeyMsg 1) 0;
   EvCmd TMain (funcCmd Quit); EvGo TMain (funcCmd Quit);
   EvCall 0 (funcCmd Quit)].

Definition trace_return : list (Event nat nat nat nat) :=
  [EvRestoreTerminal; EvReturn None].

(** The first read fails with error 9; the loop takes the error and
    [Start] returns it. *)
Definition sched_read_error : list Tid :=
  [TMain; TMain; TMain; TFeeder; TFeeder; TMain].



(** Key 2: the batch command is started, called, and delivers the batch
    message; the loop hands over the three commands and is back in its
    select. *)
Definition sched_batch : list Tid :=
  [TMain; TMain; TMain; TFeeder; TFeeder; TMain; TMain; TTask 0; TTask 0;
   TMain; TMain; TMain; TMain].

Definition trace_key_batch : list (Event nat nat nat nat) :=
  [EvInitTerminal None; EvTerm (WriteString (digit 0)); EvReadKey 2 None;
   EvMsg TFeeder (KeyMsg 2); EvUpdate (KeyMsg 2) 0;
   EvCmd TMain (Batch batch3); EvGo TMain (Batch batch3);
   EvCall 0 (Batch batch3)].

Definition trace_hand_overs : list (Event nat nat nat nat) :=
  [EvCmd TMain add7; EvGo TMain add7; EvCmd TMain nilCmd;
   EvCmd TMain (funcCmd Quit); EvGo TMain (funcCmd Quit)].

(** A program whose frame has two lines, and one whose frame carries a
    carriage-return newline of its own. *)
Definition lines : Program nat nat nat :=
  NewProgram (fun _ => (0, nilCmd)) update
    (fun _ => String.concat "" ["a"; LF; "b"]).

Definition crlf_lines : Program nat nat nat :=
  NewProgram (fun _ => (0, nilCmd)) update
    (fun _ => String.concat "" ["a"; CRLF; "b"]).

(** Key 1, the return of [Start], and then a read of the next key. *)
Definition sched_quit_then_read : list Tid := sched_key_quit ++ [TFeeder].

Definition trace_read_after : list (Event nat nat nat nat) :=
  [EvReadKey 0 None].

(** Key 1, the return of [Start], and then the return of the
    dispatcher. *)
Definition sched_quit_dispatcher : list Tid :=
  sched_key_quit ++ [TDispatcher].

End Demo.

(** * Properties *)

(** ** The [strings] functions on small inputs *)

Example Count_crlf :
  Strings.Count (String.concat "" ["a"; CRLF; "b"; CRLF]) CRLF = 2.
Proof. reflexivity. Qed.

Example Replace_lf :
  Strings.Replace (String.concat "" ["a"; LF; "b"]) LF CRLF
  = String.concat "" ["a"; CRLF; "b"].
Proof. reflexivity. Qed.

Section BatchFacts.

Context {AppMsg Key : Type}.
Implicit Types cmds : list (Cmd AppMsg Key).

(** C7. [Batch] applied to zero commands returns the nil command; when
    it returns a command at all, that command yields the batch message
    of a non-empty list, so no empty batch message is ever produced. *)
Theorem Batch_nil_or_nonempty :
  Batch [] = @nilCmd AppMsg Key /\
  forall cmds,
    match Batch cmds with
    | nilCmd => cmds = []
    | funcCmd f => f () = batchMsg cmds /\ cmds <> []
    end.
Proof.
  split; [reflexivity|].
  intros [|cmd cmds]; cbn; [reflexivity|].
  split; [reflexivity | discriminate].
Qed.

End BatchFacts.

Section RenderFacts.

Context {Model AppMsg Key : Type}.
Implicit Types (p : Program Model AppMsg Key) (model : Model).

Lemma render_same p model :
  view p model = currentRender p -> render p model = (p, []).
Proof.
  intros Heq. unfold render. rewrite Heq, String.eqb_refl. reflexivity.
Qed.

(** What a changed frame makes [render] do: the lines cleared are
    counted in the new frame, on its carriage-return newlines. *)
Lemma render_changed p model :
  view p model <> currentRender p ->
  render p model =
    (set_currentRender p (view p model),
     (if Nat.ltb 0 (Strings.Count (view p model) CRLF)
      then [ClearLines (Strings.Count (view p model) CRLF)] else [])
     ++ [WriteString (Strings.Replace (view p model) LF CRLF)]).
Proof.
  intros Hne. unfold render.
  destruct (String.eqb_spec (view p model) (currentRender p)) as [Heq|_];
    [contradiction | reflexivity].
Qed.

Lemma render_cache p model :
  currentRender (fst (render p model)) = view p model.
Proof.
  unfold render.
  destruct (String.eqb_spec (view p model) (currentRender p)) as [Heq|_];
    cbn; congruence.
Qed.

Lemma render_view p model : view (fst (render p model)) = view p.
Proof. unfold render. case_match; reflexivity. Qed.

Lemma render_update p model : update (fst (render p model)) = update p.
Proof. unfold render. case_match; reflexivity. Qed.

Lemma render_init p model : init (fst (render p model)) = init p.
Proof. unfold render. case_match; reflexivity. Qed.

Lemma writes_render p model :
  writes (snd (render p model))
  = if String.eqb (view p model) (currentRender p) then 0 else 1.
Proof.
  unfold render. destruct (String.eqb _ _); [reflexivity|].
  cbn [snd]. destruct (Nat.ltb _ _); reflexivity.
Qed.

(** C8, amended.  Of two successive [render] calls whose models give the
    same frame, the second leaves the frame cache and the terminal
    untouched, and together they write at most once: once when the frame
    differs from the cache the first call finds, not at all when it is
    already cached. *)
Theorem render_twice_same_frame p model1 model2 :
  view p model1 = view p model2 ->
  let p1 := fst (render p model1) in
  render p1 model2 = (p1, []) /\
  writes (snd (render p model1) ++ snd (render p1 model2))
  = if String.eqb (view p model1) (currentRender p) then 0 else 1.
Proof.
  intros Hview p1.
  assert (Hsame : render p1 model2 = (p1, [])).
  { apply render_same. subst p1.
    rewrite render_view, render_cache. congruence. }
  split; [exact Hsame|].
  rewrite Hsame. cbn [snd]. rewrite app_nil_r. apply writes_render.
Qed.

(** C10. A new program caches the empty frame, so when the view of the
    initial model is the empty string the initial render writes nothing
    and leaves the program as it is, also as the first thing [Start]
    does after entering raw mode. *)
Theorem render_initial_empty_view {Err : Type}
    (i : unit -> Model * Cmd AppMsg Key) u (v : Model -> string)
    (keys : list (Key * option Err)) :
  v (fst (i ())) = EmptyString ->
  currentRender (NewProgram i u v) = EmptyString /\
  render (NewProgram i u v) (fst (i ())) = (NewProgram i u v, []) /\
  exists s,
    Start (NewProgram i u v) None keys [TMain; TMain; TMain] = Some s /\
    main s = MSelect (fst (i ())) /\
    prog s = NewProgram i u v /\
    trace s = [EvInitTerminal None].
Proof.
  intros Hv.
  assert (Hr : render (NewProgram i u v) (fst (i ()))
               = (NewProgram i u v, [])) by (apply render_same; exact Hv).
  split; [reflexivity|]. split; [exact Hr|].
  unfold Start, Start_state; cbn.
  destruct (i ()) as [model cmd] eqn:Hi; cbn in *.
  destruct cmd; cbn; rewrite Hr; cbn; eexists; repeat split; reflexivity.
Qed.

End RenderFacts.

(** C1, on the code.  With the two-line frame "a\nb" cached, rendering the
    frame "3" clears nothing before it writes: [render] counts the
    carriage-return newlines of the frame it is about to write, after
    having overwritten the cache with it. *)
Theorem render_two_lines_clears_nothing :
  Strings.Count (currentRender Demo.two_lines) LF = 1 /\
  render Demo.two_lines 3
  = (set_currentRender Demo.two_lines (Demo.digit 3),
     [WriteString (Demo.digit 3)]).
Proof. split; reflexivity. Qed.

(** C8, as stated, fails: two renders of the empty frame on a new program
    write nothing at all. *)
Lemma render_twice_blank_no_write :
  ~ (forall model1 model2 : nat,
       view Demo.blank model1 = view Demo.blank model2 ->
       writes (snd (render Demo.blank model1)
               ++ snd (render (fst (render Demo.blank model1)) model2)) = 1).
Proof. intros H. specialize (H 0 1 eq_refl). discriminate H. Qed.

Lemma render_twice_same_frame_witness :
  render (fst (render Demo.counter 4)) 4 = (fst (render Demo.counter 4), []) /\
  writes (snd (render Demo.counter 4)
          ++ snd (render (fst (render Demo.counter 4)) 4)) = 1.
Proof. exact (render_twice_same_frame Demo.counter 4 4 eq_refl). Defined.

Lemma render_initial_empty_view_witness :
  render Demo.blank 0 = (Demo.blank, []).
Proof.
  exact (proj1 (proj2 (render_initial_empty_view (Err := nat)
    (fun _ => (0, nilCmd)) Demo.update (fun _ => EmptyString) [] eq_refl))).
Defined.

(** ** Invariants of [Start] *)

Section StartFacts.

Context {Model AppMsg Key Err : Type}.
Local Abbreviation State := (State Model AppMsg Key Err).
Local Abbreviation Program := (Program Model AppMsg Key).
Local Abbreviation Event := (Event Model AppMsg Key Err).

Set Warnings "-clear-no-such-hyp".

Implicit Types (s : State) (p : Program) (t : Tid) (sched : list Tid)
  (raw : option Err) (keys : list (Key * option Err)) (tr : list Event).

(** A property of the initial state that every step preserves holds
    wherever a schedule leads. *)
Lemma run_invariant (P : State -> Prop) :
  (forall t s s', P s -> step t s = Some s' -> P s') ->
  forall sched s0 s, P s0 -> run sched s0 = Some s -> P s.
Proof.
  intros Hstep sched. induction sched as [|t sched IH]; intros s0 s H0 Hrun.
  - cbn in Hrun. congruence.
  - cbn in Hrun. destruct (step t s0) as [s1|] eqn:H1; [|discriminate].
    eauto.
Qed.

(** Case analysis on one step: the state is opened into its fields and
    every branch of the step function is followed. *)
Ltac step_inv H :=
  unfold step, step_main, step_feeder, step_dispatcher, step_task,
    send_msgs, send_errs, send_cmds, loop_msg, finish in H;
  cbn in H;
  repeat (match type of H with
          | context [match ?x with _ => _ end] => destruct x eqn:?
          end; cbn in H; try discriminate H);
  simplify_eq/=.

Lemma wf_step t s s' : wf s -> step t s = Some s' -> wf s'.
Proof.
  unfold wf. intros Hwf H. destruct s as [p m fd d tk dn ty inp tr].
  step_inv H; cbn in *; repeat case_match; simplify_eq/=; try naive_solver.
  all: destruct Hwf as (_&_&_&_&_&[->|[? ->]]); by destruct i as [|[|?]].
Qed.

Lemma wf_Start_state p raw keys : wf (Start_state p raw keys).
Proof. cbn. auto. Qed.

Lemma wf_Start p raw keys sched s : Start p raw keys sched = Some s -> wf s.
Proof. apply run_invariant; [apply wf_step | apply wf_Start_state]. Qed.

Lemma tty_step t s s' : step t s = Some s' -> tty s' = tty s.
Proof.
  intros H. destruct s as [p m fd d tk dn ty inp tr]. step_inv H; done.
Qed.

Lemma tty_Start p raw keys sched s :
  Start p raw keys sched = Some s -> tty s = raw.
Proof.
  apply (run_invariant (fun s => tty s = raw)); [|reflexivity].
  intros t s1 s2 H1 H2. rewrite (tty_step _ _ _ H2). exact H1.
Qed.

#[local] Arguments restores : simpl never.

Lemma restores_app tr1 tr2 :
  restores (tr1 ++ tr2) = restores tr1 + restores tr2.
Proof. unfold restores. rewrite List.filter_app, length_app. reflexivity. Qed.

Lemma restores_EvTerm (ops : list TermOp) :
  restores (map EvTerm ops : list Event) = 0.
Proof. induction ops; cbn; auto. Qed.

Lemma returned_trace_app r tr evs :
  (exists pre post,
     tr = pre ++ [EvRestoreTerminal; EvReturn r] ++ post /\
     restores pre = 0 /\ restores post = 0) ->
  restores evs = 0 ->
  exists pre post,
    tr ++ evs = pre ++ [EvRestoreTerminal; EvReturn r] ++ post /\
    restores pre = 0 /\ restores post = 0.
Proof.
  intros (pre & post & -> & Hpre & Hpost) Hevs.
  exists pre, (post ++ evs). rewrite restores_app, Hpost, Hevs.
  rewrite <- !app_assoc. auto.
Qed.

Lemma restores_step t s s' :
  tty s = None ->
  step t s = Some s' ->
  restored_on_return s -> restored_on_return s'.
Proof.
  intros Hty H Hinv. destruct s as [p m fd d tk dn ty inp tr].
  step_inv H; unfold restored_on_return in *; cbn in *.
  all: repeat case_match; simplify_eq/=.
  all: try assumption.
  all: try (rewrite ?restores_app, ?restores_EvTerm, ?Hinv; reflexivity).
  all: try (apply returned_trace_app; [assumption | reflexivity]).
  exists tr, []. auto.
Qed.

(** C9. When entering raw mode fails, all [Start] does is return that
    error: it has either not moved yet and its one step returns the
    error, or it has returned the error with nothing else done, and the
    terminal is never restored.  When raw mode was entered and [Start] has
    returned (after a quit message or a read error), the terminal was
    restored exactly once, right before the return. *)
Theorem Start_restores_terminal p raw keys sched s :
  Start p raw keys sched = Some s ->
  match raw with
  | Some e =>
      (main s = MStart /\ trace s = [] /\
       exists s', step TMain s = Some s' /\ main s' = MReturned (Some e) /\
                  trace s' = [EvInitTerminal (Some e); EvReturn (Some e)]) \/
      (main s = MReturned (Some e) /\
       trace s = [EvInitTerminal (Some e); EvReturn (Some e)])
  | None =>
      forall r,
        main s = MReturned r ->
        exists pre post,
          trace s = pre ++ [EvRestoreTerminal; EvReturn r] ++ post /\
          restores pre = 0 /\ restores post = 0
  end.
Proof.
  intros Hrun.
  pose proof (wf_Start _ _ _ _ _ Hrun) as Hwf.
  pose proof (tty_Start _ _ _ _ _ Hrun) as Hty.
  destruct raw as [e|].
  - unfold wf in Hwf. destruct s as [p0 m fd d tk dn ty inp tr].
    cbn in *. subst ty.
    destruct m; try (destruct Hwf as (_ & _ & _ & Hnone & _); discriminate);
      try (destruct Hwf as (_ & _ & Hnone); discriminate);
      try (destruct Hwf as (_ & Hnone); discriminate).
    + left. destruct Hwf as (_ & _ & _ & _ & ->).
      split; [reflexivity|]. split; [reflexivity|].
      eexists. repeat split.
    + right. destruct Hwf as [[_ Hnone]|(e' & He' & -> & _ & _ & _ & ->)];
        [discriminate|].
      injection He' as ->. auto.
  - intros r Hmain.
    enough (Hinv : restored_on_return s /\ tty s = None).
    { destruct Hinv as [Hinv _]. unfold restored_on_return in Hinv.
      rewrite Hmain in Hinv. exact Hinv. }
    revert Hrun. unfold Start.
    apply (run_invariant (fun s => restored_on_return s /\ tty s = None));
      [|split; reflexivity].
    intros t s1 s2 [Hinv Hnone] Hstep. split.
    + eapply restores_step; eassumption.
    + rewrite (tty_step _ _ _ Hstep). exact Hnone.
Qed.


Lemma delivered_app tr1 tr2 :
  delivered (tr1 ++ tr2) = delivered tr1 ++ delivered tr2.
Proof.
  induction tr1 as [|ev tr1 IH]; [reflexivity|].
  destruct ev; cbn; rewrite ?IH; reflexivity.
Qed.

Lemma delivered_EvTerm (ops : list TermOp) :
  delivered (map EvTerm ops : list Event) = [].
Proof. induction ops; cbn; auto. Qed.

Lemma model_is_fold_step p t s s' :
  wf s -> step t s = Some s' -> model_is_fold p s -> model_is_fold p s'.
Proof.
  unfold model_is_fold, wf.
  intros Hwf H (Hupd & Hinit & Hfold).
  destruct s as [p0 m fd d tk dn ty inp tr].
  step_inv H; cbn in *.
  all: repeat match goal with
         | Hr : render ?q ?model = _ |- _ =>
             pose proof (render_update q model) as ?;
             pose proof (render_init q model) as ?;
             rewrite Hr in *; clear Hr
         end; cbn in *.
  all: rewrite ?delivered_app, ?delivered_EvTerm, ?List.filter_app,
         ?fold_left_app, ?app_nil_r; cbn.
  all: try (split; [congruence|split; [congruence|]]).
  all: try done.
  all: intros ? [= <-].
  all: try (rewrite <- (Hfold _ eq_refl); unfold transition;
            rewrite <- Hupd;
            match goal with Hu : update _ _ _ = _ |- _ => by rewrite Hu end).
  all: destruct Hwf as (_ & _ & _ & _ & _ & ->); cbn.
  all: rewrite <- Hinit;
       match goal with Hi : init _ _ = _ |- _ => by rewrite Hi end.
Qed.

(** C6. Whenever [Start] holds a model, it is the left fold of the
    transition function, from the initial model, over the ordinary
    messages delivered to the loop so far, whoever sent them. *)
Theorem Start_model_is_fold p raw keys sched s model :
  Start p raw keys sched = Some s ->
  main_model (main s) = Some model ->
  model = fold_left (transition p)
            (List.filter ordinary (delivered (trace s)))
            (fst (init p ())).
Proof.
  intros Hrun.
  enough (Hinv : wf s /\ model_is_fold p s) by (apply Hinv).
  revert Hrun. unfold Start.
  apply (run_invariant (fun s => wf s /\ model_is_fold p s)).
  - intros t s1 s2 [Hwf Hinv] Hstep. split.
    + eapply wf_step; eassumption.
    + eapply model_is_fold_step; eassumption.
  - split; [apply wf_Start_state|]. repeat split. discriminate.
Qed.

Lemma split_first_app (P : Event -> bool) tr evs :
  split_first P (tr ++ evs)
  = match split_first P tr with
    | Some (ev, post) => Some (ev, post ++ evs)
    | None => split_first P evs
    end.
Proof.
  induction tr as [|ev tr IH]; cbn; [reflexivity|].
  destruct (P ev); [reflexivity | exact IH].
Qed.

Lemma split_first_EvTerm (P : Event -> bool) (ops : list TermOp) :
  (forall op, P (EvTerm op) = false) ->
  split_first P (map EvTerm ops) = None.
Proof. intros HP. induction ops; cbn; rewrite ?HP; auto. Qed.

(** An event that satisfies [P] is the first such event of the trace or
    comes after it. *)
Lemma split_first_cons (P : Event -> bool) pre x post :
  P x = true ->
  exists y post',
    split_first P (pre ++ x :: post) = Some (y, post') /\
    ((y = x /\ post' = post) \/ exists mid, post' = mid ++ x :: post).
Proof.
  intros Hx. induction pre as [|ev pre IH]; cbn.
  - rewrite Hx. exists x, post. auto.
  - destruct (P ev); [|exact IH].
    exists ev, (pre ++ x :: post). split; [reflexivity|].
    right. exists pre. reflexivity.
Qed.

Lemma quit_ends_step t s s' :
  step t s = Some s' -> quit_ends s -> quit_ends s'.
Proof.
  intros H Hinv. destruct s as [p m fd d tk dn ty inp tr].
  step_inv H; unfold quit_ends in *; cbn in *; try done.
  all: rewrite ?split_first_app, ?split_first_EvTerm by done.
  all: destruct (split_first is_quit tr) as [[ev post]|]; cbn; try done.
  all: try match goal with
           | Hm : _ /\ (_ \/ _) |- _ => destruct Hm as [_ [?|?]]; discriminate
           end.
  all: rewrite ?Forall_app.
  all: try match goal with
           | Hi : Forall _ _ /\ _ |- _ =>
               destruct Hi as [Hq Hm]; split;
               [first [exact Hq | split; [exact Hq | by repeat constructor]]
               | naive_solver]
           end.
  all: try (split; [constructor | by auto]).
Qed.

Lemma quit_ends_Start p raw keys sched s :
  Start p raw keys sched = Some s -> quit_ends s.
Proof.
  apply (run_invariant quit_ends); [|exact I].
  intros t s1 s2 Hinv Hstep. eapply quit_ends_step; eassumption.
Qed.

(** C4. Once the loop has received a quit message, from any sender, no
    update follows it, and [Start] has returned nil or is about to: all
    that is left for it is to run the deferred restoreTerminal and
    return nil. *)
Theorem quit_terminates_Start p raw keys sched s pre from post :
  Start p raw keys sched = Some s ->
  trace s = pre ++ EvMsg from quitMsg :: post ->
  Forall (fun ev => is_update ev = false) post /\
  (main s = MReturned None \/
   (main s = MDeferred None /\
    exists s', step TMain s = Some s' /\ main s' = MReturned None /\
               trace s' = trace s ++ [EvRestoreTerminal; EvReturn None])).
Proof.
  intros Hrun Htr. pose proof (quit_ends_Start _ _ _ _ _ Hrun) as Hinv.
  unfold quit_ends in Hinv. rewrite Htr in Hinv.
  destruct (split_first_cons is_quit pre (EvMsg from quitMsg) post eq_refl)
    as (y & post' & Hsplit & Hpost).
  rewrite Hsplit in Hinv. destruct Hinv as [Hq Hmain].
  destruct Hpost as [[_ ->]|[mid ->]].
  - split.
    + eapply Forall_impl; [exact Hq|]. intros ev Hev. apply Hev.
    + destruct Hmain as [Hm|Hm]; [right|left; exact Hm].
      split; [exact Hm|]. destruct s as [p0 m fd d tk dn ty inp tr].
      cbn in *. subst m. eexists. repeat split.
  - apply Forall_app in Hq. destruct Hq as [_ Hq].
    apply Forall_cons_1 in Hq. destruct Hq as [[_ Hrecv] _]. discriminate.
Qed.

Lemma Forall_EvTerm (P : Event -> Prop) (ops : list TermOp) :
  (forall op, P (EvTerm op)) -> Forall P (map EvTerm ops).
Proof. intros HP. induction ops; constructor; auto. Qed.







Lemma started_ok_app tr evs from cmd :
  started_ok tr from cmd -> started_ok (tr ++ evs) from cmd.
Proof. intros [Hne Hin]. split; [exact Hne|]. apply in_app_iff. auto. Qed.

Lemma called_ok_app tr evs cmd :
  called_ok tr cmd -> called_ok (tr ++ evs) cmd.
Proof.
  intros [Hne [from Hin]]. split; [exact Hne|].
  exists from. apply in_app_iff. auto.
Qed.

Lemma result_ok_app tr evs i msg :
  result_ok tr i msg -> result_ok (tr ++ evs) i msg.
Proof.
  intros (f & Hf & Hin). exists f. split; [exact Hf|].
  apply in_app_iff. auto.
Qed.

Lemma task_ok_app tr evs i task :
  task_ok tr i task -> task_ok (tr ++ evs) i task.
Proof.
  destruct task; cbn; auto using called_ok_app, result_ok_app.
Qed.

(** How the invariant extends along a step that appends [evs] to the
    trace: only what is new has to be justified. *)
Lemma funcs_run_extend tr evs (tk tk' : list (Task AppMsg Key)) :
  funcs_run tr tk ->
  (forall from cmd,
     In (EvGo from cmd) evs -> started_ok (tr ++ evs) from cmd) ->
  (forall i cmd, In (EvCall i cmd) evs -> called_ok (tr ++ evs) cmd) ->
  (forall i msg,
     In (EvMsg (TTask i) msg) evs -> result_ok (tr ++ evs) i msg) ->
  (forall i task,
     tk' !! i = Some task ->
     tk !! i = Some task \/ task_ok (tr ++ evs) i task) ->
  funcs_run (tr ++ evs) tk'.
Proof.
  intros (Hgo & Hcall & Hmsg & Htask) Ngo Ncall Nmsg Ntask.
  split_and!.
  - intros from cmd [Hin|Hin]%in_app_iff; [|by apply Ngo].
    by apply started_ok_app, Hgo.
  - intros i cmd [Hin|Hin]%in_app_iff; [|by eapply Ncall].
    eapply called_ok_app, Hcall, Hin.
  - intros i msg [Hin|Hin]%in_app_iff; [|by apply Nmsg].
    by apply result_ok_app, Hmsg.
  - intros i task [Hi|Hi]%Ntask; [|exact Hi].
    by apply task_ok_app, Htask.
Qed.

Lemma funcs_run_tasks tr (tk tk' : list (Task AppMsg Key)) :
  funcs_run tr tk ->
  (forall i task,
     tk' !! i = Some task -> tk !! i = Some task \/ task_ok tr i task) ->
  funcs_run tr tk'.
Proof.
  intros (Hgo & Hcall & Hmsg & Htask) Ntask. split_and!; try assumption.
  intros i task [Hi|Hi]%Ntask; [by apply Htask | exact Hi].
Qed.

Lemma only_funcs_run_step t s s' :
  step t s = Some s' -> only_funcs_run s -> only_funcs_run s'.
Proof.
  intros H Hinv. destruct s as [p m fd d tk dn ty inp tr].
  step_inv H; unfold only_funcs_run in *; cbn in *; try done.
  all: first [ eapply funcs_run_extend; [exact Hinv|..]
             | eapply funcs_run_tasks; [exact Hinv|] ].
  all: try (intros *; intros (? & [=] & _)%in_map_iff).
  all: try (intros *; cbn; intros Hin; by destruct_or?; simplify_eq/=).
  all: try (intros *; auto; fail).
  all: try match goal with
           | Hi : _ !! _ = Some (TCall nilCmd) |- _ =>
               destruct (proj1 (proj2 (proj2 (proj2 Hinv)) _ _ Hi)); done
           end.
  all: try (intros from cmd Hin; cbn in Hin; destruct_or?; simplify_eq/=;
            split; [done|]; apply in_app_iff; right; left; reflexivity).
  all: try (intros ? ? Hin; cbn in Hin; destruct_or?; simplify_eq/=;
            first [apply called_ok_app | apply result_ok_app];
            match goal with
            | Hi : _ !! _ = Some _ |- _ =>
                exact (proj2 (proj2 (proj2 Hinv)) _ _ Hi)
            end).
  all: intros j task Hj;
       rewrite ?list_lookup_insert_Some, ?lookup_app_Some,
         ?list_lookup_singleton_Some in Hj;
       repeat first [destruct_or! | destruct_and!]; simplify_eq/=; auto.
  all: right;
       first [ split; [done|]; eexists; apply in_app_iff; right; cbn;
               by auto
             | eexists; split; [reflexivity|]; apply in_app_iff; right;
               cbn; by auto ].
Qed.

Lemma only_funcs_run_Start p raw keys sched s :
  Start p raw keys sched = Some s -> only_funcs_run s.
Proof.
  apply (run_invariant only_funcs_run).
  - intros t s1 s2 Hinv Hstep. eapply only_funcs_run_step; eassumption.
  - split_and!; by intros.
Qed.

(** C3, amended.  The dispatcher starts a task only for a non-nil command
    it received; only such tasks call their command, so a nil command is
    never called; and every message a task delivers to the loop is the
    result of such a call. *)
Theorem nil_command_never_runs p raw keys sched s :
  Start p raw keys sched = Some s ->
  (forall from cmd,
     In (EvGo from cmd) (trace s) ->
     cmd <> nilCmd /\ In (EvCmd from cmd) (trace s)) /\
  (forall i cmd,
     In (EvCall i cmd) (trace s) ->
     cmd <> nilCmd /\ exists from, In (EvGo from cmd) (trace s)) /\
  (forall i msg,
     In (EvMsg (TTask i) msg) (trace s) ->
     exists f, msg = f () /\ In (EvCall i (funcCmd f)) (trace s)) /\
  (forall i, tasks s !! i <> Some TPanic).
Proof.
  intros Hrun.
  destruct (only_funcs_run_Start _ _ _ _ _ Hrun) as (Hgo & Hcall & Hmsg & Htk).
  split_and!; try assumption.
  intros i Hi. exact (Htk _ _ Hi).
Qed.


Lemma app_cons_split {A} (tr evs pre post : list A) x :
  tr ++ evs = pre ++ x :: post ->
  (exists post0, tr = pre ++ x :: post0 /\ post = post0 ++ evs) \/
  (exists evs1, pre = tr ++ evs1 /\ evs = evs1 ++ x :: post).
Proof.
  revert pre. induction tr as [|a tr IH]; intros pre H; cbn in H.
  - right. exists pre. auto.
  - destruct pre as [|b pre]; cbn in H; injection H as -> H.
    + left. exists tr. auto.
    + destruct (IH _ H) as [(post0 & -> & ->)|(evs1 & -> & ->)].
      * left. exists post0. auto.
      * right. exists evs1. auto.
Qed.

Lemma loop_cmds_app tr evs :
  loop_cmds (tr ++ evs)
  = if existsb is_recv tr then loop_cmds tr
    else loop_cmds tr ++ loop_cmds evs.
Proof.
  induction tr as [|ev tr IH]; [reflexivity|].
  destruct ev as [| | | | | | | |[]| |]; cbn; rewrite ?IH; try reflexivity.
  destruct (existsb is_recv tr); reflexivity.
Qed.

Lemma loop_gos_app tr evs :
  loop_gos (tr ++ evs)
  = if existsb is_recv tr then loop_gos tr
    else loop_gos tr ++ loop_gos evs.
Proof.
  induction tr as [|ev tr IH]; [reflexivity|].
  destruct ev as [| | | | | | | | |[]| ]; cbn; rewrite ?IH; try reflexivity.
  destruct (existsb is_recv tr); reflexivity.
Qed.

Lemma loop_gos_EvTerm (ops : list TermOp) :
  loop_gos (map EvTerm ops : list Event) = [].
Proof. induction ops; cbn; auto. Qed.

Lemma existsb_is_recv_EvTerm (ops : list TermOp) :
  existsb is_recv (map EvTerm ops : list Event) = false.
Proof. induction ops; cbn; auto. Qed.

Lemma loop_cmds_EvTerm (ops : list TermOp) :
  loop_cmds (map EvTerm ops : list Event) = [].
Proof. induction ops; cbn; auto. Qed.

Lemma EvTerm_split (ops : list TermOp) (evs1 post : list Event) x :
  map EvTerm ops = evs1 ++ x :: post -> exists op, x = EvTerm op.
Proof.
  intros H. assert (Hin : In x (map EvTerm ops)).
  { rewrite H. apply in_app_iff. right. by left. }
  apply in_map_iff in Hin as (op & <- & _). eauto.
Qed.

Lemma batch_fanned_out_step t s s' :
  step t s = Some s' -> batch_fanned_out s -> batch_fanned_out s'.
Proof.
  intros H Hinv. destruct s as [p m fd d tk dn ty inp tr].
  step_inv H; unfold batch_fanned_out, batch_progress in *; cbn in *;
    try done.
  all: intros pre from0 l0 post Htr.
  all: try (apply app_cons_split in Htr
              as [(post0 & Htr & ->)|(evs1 & -> & Hevs)]).
  all: try (specialize (Hinv _ _ _ _ Htr) as [Hgo Hcmd]).
  all: rewrite ?existsb_app, ?loop_cmds_app, ?loop_gos_app,
         ?existsb_is_recv_EvTerm, ?loop_cmds_EvTerm, ?loop_gos_EvTerm.
  all: try (destruct (existsb is_recv post0); cbn in *;
            rewrite ?List.filter_app, ?app_nil_r; cbn;
            split; first [done | congruence | by rewrite <- app_assoc]).
  all: try (destruct (existsb is_recv post); cbn in *;
            rewrite ?app_nil_r in *; done).
  all: try (apply EvTerm_split in Hevs as [? [=]]).
  all: by destruct evs1 as [|? [|? [|? ?]]]; simplify_eq/=.
Qed.

Lemma batch_fanned_out_Start p raw keys sched s :
  Start p raw keys sched = Some s -> batch_fanned_out s.
Proof.
  apply (run_invariant batch_fanned_out).
  - intros t s1 s2 Hinv Hstep. eapply batch_fanned_out_step; eassumption.
  - intros [|? ?] ? ? ? ?; discriminate.
Qed.

Lemma no_batch_update_step t s s' :
  step t s = Some s' ->
  Forall (fun ev => is_batch_update ev = false) (trace s) ->
  Forall (fun ev => is_batch_update ev = false) (trace s').
Proof.
  intros H Hinv. destruct s as [p m fd d tk dn ty inp tr].
  step_inv H; cbn in *; try done.
  all: apply Forall_app; split; [exact Hinv|].
  all: try by apply Forall_EvTerm.
  all: by repeat constructor.
Qed.

(** Inside the range loop over a batch the loop is never blocked: the
    dispatcher takes the next command, and starts a task for it unless it
    is nil. *)
Lemma batch_next s model cmd rest :
  wf s ->
  main s = MBatch model (cmd :: rest) ->
  exists s',
    step TMain s = Some s' /\ main s' = MBatch model rest /\
    trace s' = trace s ++ hand_over TMain cmd.
Proof.
  unfold wf. intros Hwf Hmain. destruct s as [p m fd d tk dn ty inp tr].
  cbn in *. subst m. destruct Hwf as (-> & _ & _).
  destruct cmd; cbn; eexists; repeat split.
Qed.

(** C5. When the loop has received a batch message carrying [l], the
    transition function is never called on it, and the commands the loop
    hands over before its select receives again are those of [l], each
    once and in the order of [l]: all of them once the loop is back in its
    select, and otherwise those before [rest], with the loop about to hand
    over the first command of [rest].  The dispatcher starts a task for
    each of them that is not nil, in the same order. *)
Theorem batch_fans_out p raw keys sched s pre from l post :
  Start p raw keys sched = Some s ->
  trace s = pre ++ EvMsg from (batchMsg l) :: post ->
  Forall (fun ev => is_batch_update ev = false) (trace s) /\
  loop_gos post = List.filter is_func (loop_cmds post) /\
  (loop_cmds post = l \/
   exists model cmd rest,
     main s = MBatch model (cmd :: rest) /\
     loop_cmds post ++ cmd :: rest = l /\
     exists s',
       step TMain s = Some s' /\ main s' = MBatch model rest /\
       trace s' = trace s ++ hand_over TMain cmd).
Proof.
  intros Hrun Htr. split.
  - revert Hrun. unfold Start.
    apply (run_invariant
             (fun s => Forall (fun ev => is_batch_update ev = false)
                         (trace s))); [|constructor].
    intros t s1 s2 Hinv Hstep. eapply no_batch_update_step; eassumption.
  - pose proof (batch_fanned_out_Start _ _ _ _ _ Hrun _ _ _ _ Htr) as Hb.
    pose proof (wf_Start _ _ _ _ _ Hrun) as Hwf.
    destruct Hb as [Hgo Hb]. split; [exact Hgo|].
    destruct (existsb is_recv post); [by left|].
    destruct (main s) as [| | | |model [|cmd rest]| | | |] eqn:Hmain;
      try done; [by left| |].
    + left. by rewrite app_nil_r in Hb.
    + right. exists model, cmd, rest. split_and!; [done..|].
      by apply batch_next.
Qed.

(** ** More invariants of [Start] *)

(** What a call of [render] tells, once its result has a name. *)
Ltac render_facts :=
  repeat match goal with
         | Hr : render ?q ?m = (?q', ?ops) |- _ =>
             let H1 := fresh "Hcache" in
             let H2 := fresh "Hview" in
             let H3 := fresh "Hupdate" in
             let H4 := fresh "Hinit" in
             pose proof (render_cache q m) as H1;
             pose proof (render_view q m) as H2;
             pose proof (render_update q m) as H3;
             pose proof (render_init q m) as H4;
             rewrite Hr in H1, H2, H3, H4; cbn [fst] in H1, H2, H3, H4;
             revert Hr
         end; intros.

Lemma prog_fixed_step p t s s' :
  step t s = Some s' -> prog_fixed p s -> prog_fixed p s'.
Proof.
  intros H (Hi & Hu & Hv). destruct s as [p0 m fd d tk dn ty inp tr].
  step_inv H; unfold prog_fixed in *; cbn in *; try done.
  all: render_facts; split_and!; congruence.
Qed.

Lemma prog_fixed_Start p raw keys sched s :
  Start p raw keys sched = Some s -> prog_fixed p s.
Proof.
  apply (run_invariant (prog_fixed p)); [|done].
  intros t s1 s2 Hinv Hstep. eapply prog_fixed_step; eassumption.
Qed.

Lemma cache_in_sync_step t s s' :
  step t s = Some s' -> cache_in_sync s -> cache_in_sync s'.
Proof.
  intros H Hinv. destruct s as [p0 m fd d tk dn ty inp tr].
  step_inv H; unfold cache_in_sync in *; cbn in *; try done.
  all: render_facts; try congruence.
  all: by destruct m.
Qed.

(** X4. Whenever the loop waits in its select, or hands a batch over, the
    cached frame is the view of the model it holds. *)
Theorem Start_cache_in_sync p raw keys sched s model :
  Start p raw keys sched = Some s ->
  main s = MSelect model \/ (exists rest, main s = MBatch model rest) ->
  currentRender (prog s) = view p model.
Proof.
  intros Hrun Hmain.
  destruct (prog_fixed_Start _ _ _ _ _ Hrun) as (_ & _ & <-).
  assert (Hinv : cache_in_sync s).
  { revert Hrun. apply (run_invariant cache_in_sync); [|done].
    intros t s1 s2 Hinv Hstep. eapply cache_in_sync_step; eassumption. }
  unfold cache_in_sync in Hinv.
  destruct Hmain as [Hm|[rest Hm]]; by rewrite Hm in Hinv.
Qed.

(** X5. The goroutine of [Start] blocks nowhere but in its select: until
    it has returned it can always move, unless it waits there. *)
Theorem loop_blocks_only_in_select p raw keys sched s :
  Start p raw keys sched = Some s ->
  (exists s', step TMain s = Some s') \/
  (exists model, main s = MSelect model) \/
  (exists r, main s = MReturned r).
Proof.
  intros Hrun. pose proof (wf_Start _ _ _ _ _ Hrun) as Hwf.
  unfold wf in Hwf. destruct s as [p0 m fd d tk dn ty inp tr]. cbn in *.
  destruct m as [| |model|model|model [|cmd rest]|model cmd|model|r|r].
  all: try (right; by eauto).
  all: left; cbn.
  all: try (destruct Hwf as (-> & _); cbn).
  all: repeat case_match; eauto.
Qed.

Lemma reads_app tr1 tr2 : reads (tr1 ++ tr2) = reads tr1 ++ reads tr2.
Proof.
  induction tr1 as [|ev tr1 IH]; [reflexivity|].
  destruct ev; cbn; by rewrite ?IH.
Qed.

Lemma reads_EvTerm (ops : list TermOp) :
  reads (map EvTerm ops : list Event) = [].
Proof. induction ops; cbn; auto. Qed.

Lemma feeder_keys_app tr1 tr2 :
  feeder_keys (tr1 ++ tr2) = feeder_keys tr1 ++ feeder_keys tr2.
Proof.
  induction tr1 as [|ev tr1 IH]; [reflexivity|].
  destruct ev as [| | | | | |[] []| | | |]; cbn; by rewrite ?IH.
Qed.

Lemma feeder_keys_EvTerm (ops : list TermOp) :
  feeder_keys (map EvTerm ops : list Event) = [].
Proof. induction ops; cbn; auto. Qed.

Lemma In_reads tr k r : In (k, r) (reads tr) <-> In (EvReadKey k r) tr.
Proof.
  induction tr as [|ev tr IH]; [reflexivity|].
  destruct ev; cbn; rewrite ?IH; try (split; [by auto | by intros [|]]).
  split; intros [[=]|]; subst; auto.
Qed.

Lemma return_caused_step t s s' :
  wf s -> step t s = Some s' -> return_caused s -> return_caused s'.
Proof.
  intros Hwf H [Hfd Hinv]. destruct s as [p0 m fd d tk dn ty inp tr].
  step_inv H; unfold return_caused, wf in *; cbn in *.
  all: rewrite ?reads_app, ?reads_EvTerm, ?app_nil_r; cbn.
  all: repeat setoid_rewrite in_app_iff; cbn.
  all: split; [intros ? ? Hk; simplify_eq; by eauto|].
  all: repeat case_match; simplify_eq; try done.
  all: repeat setoid_rewrite in_app_iff; cbn.
  all: try match goal with
           | Hq : exists from, In (EvMsg from quitMsg) _ |- _ =>
               destruct Hq as [from' Hq]; exists from'; by auto
           | He : _ \/ (exists k, In _ _) |- _ =>
               destruct He as [?|[k' ?]]; [by left | right; exists k'; by auto]
           end.
  all: try by left.
  all: try (right; eexists; by apply Hfd).
  all: eexists; by auto.
Qed.

Lemma keys_in_order_step keys t s s' :
  wf s -> step t s = Some s' -> keys_in_order keys s -> keys_in_order keys s'.
Proof.
  intros Hwf H [Hin Hout]. destruct s as [p0 m fd d tk dn ty inp tr].
  step_inv H; unfold keys_in_order, wf in *; cbn in *.
  all: rewrite ?reads_app, ?reads_EvTerm, ?feeder_keys_app,
         ?feeder_keys_EvTerm, ?map_app, ?app_nil_r; cbn.
  all: rewrite ?app_nil_r.
  all: try (split; [by rewrite <- ?app_assoc | ]).
  all: try done.
  all: try (destruct Hwf as (-> & _)); cbn in Hout.
  all: rewrite app_nil_r in Hout; congruence.
Qed.

Lemma quiet_after_return_step t s s' :
  step t s = Some s' -> quiet_after_return s -> quiet_after_return s'.
Proof.
  intros H Hinv. destruct s as [p0 m fd d tk dn ty inp tr].
  step_inv H; unfold quiet_after_return in *; cbn in *; try done.
  all: rewrite ?split_first_app, ?split_first_EvTerm by done.
  all: destruct (split_first is_return tr) as [[ev post]|]; cbn.
  all: repeat case_match; simplify_eq/=; try done.
  all: try (destruct Hinv as [_ [=]]; fail).
  all: try (destruct Hinv as [Hq ->]; split; [|done];
            apply Forall_app; split; [exact Hq | by repeat constructor]).
  all: try (split; [constructor | done]).
  all: try (by destruct (Hinv _ eq_refl)).
Qed.

Lemma keys_in_order_Start p raw keys sched s :
  Start p raw keys sched = Some s -> keys_in_order keys s.
Proof.
  intros Hrun.
  enough (Hinv : wf s /\ keys_in_order keys s) by (apply Hinv).
  revert Hrun. unfold Start.
  apply (run_invariant (fun s => wf s /\ keys_in_order keys s)).
  - intros t s1 s2 [Hwf Hinv] Hstep. split.
    + eapply wf_step; eassumption.
    + eapply keys_in_order_step; eassumption.
  - split; [apply wf_Start_state | done].
Qed.

(** X6. The value [Start] returns has its cause in what happened: nil
    only after the loop received a quit message, an error only if it is
    the one [initTerminal] failed with or the one a read of the input
    failed with. *)
Theorem Start_return_value p raw keys sched s r :
  Start p raw keys sched = Some s ->
  main s = MReturned r ->
  match r with
  | None => raw = None /\ exists from, In (EvMsg from quitMsg) (trace s)
  | Some e =>
      raw = Some e \/
      (raw = None /\ exists k,
         In (k, Some e) keys /\ In (EvReadKey k (Some e)) (trace s))
  end.
Proof.
  intros Hrun Hmain.
  pose proof (wf_Start _ _ _ _ _ Hrun) as Hwf.
  pose proof (tty_Start _ _ _ _ _ Hrun) as Hty.
  destruct (keys_in_order_Start _ _ _ _ _ Hrun) as [Hkeys _].
  assert (Hinv : wf s /\ return_caused s).
  { revert Hrun. unfold Start.
    apply (run_invariant (fun s => wf s /\ return_caused s)).
    - intros t s1 s2 [Hwf1 Hinv] Hstep. split.
      + eapply wf_step; eassumption.
      + eapply return_caused_step; eassumption.
    - split; [apply wf_Start_state|]. split; [discriminate | exact I]. }
  destruct Hinv as [_ [_ Hinv]]. unfold wf in Hwf.
  rewrite Hmain in Hinv, Hwf. rewrite Hty in *.
  destruct r as [e|].
  - destruct Hinv as [He|[k Hk]]; [by left|].
    destruct Hwf as [[_ ->]|(e' & -> & [= <-] & _)]; [right | by left].
    split; [reflexivity|]. exists k. split; [|by apply In_reads].
    rewrite <- Hkeys. apply in_app_iff. by left.
  - destruct Hwf as [[_ ->]|(e' & _ & [=] & _)]. by split.
Qed.

(** X7. Once [Start] has returned, nothing is written to the terminal,
    [update] is not called and the loop receives nothing any more: all
    that can follow is a read of the input or a move of a command
    task. *)
Theorem nothing_after_return p raw keys sched s pre r post :
  Start p raw keys sched = Some s ->
  trace s = pre ++ EvReturn r :: post ->
  main s = MReturned r /\
  Forall (fun ev => after_return ev = true) post.
Proof.
  intros Hrun Htr.
  assert (Hinv : quiet_after_return s).
  { revert Hrun. apply (run_invariant quiet_after_return).
    - intros t s1 s2 Hinv Hstep. eapply quiet_after_return_step; eassumption.
    - cbn. discriminate. }
  unfold quiet_after_return in Hinv. rewrite Htr in Hinv.
  destruct (split_first_cons is_return pre (EvReturn r) post eq_refl)
    as (y & post' & Hsplit & Hpost).
  rewrite Hsplit in Hinv.
  destruct Hpost as [[-> ->]|[mid ->]]; [by destruct Hinv|].
  destruct y; try done. destruct Hinv as [Hq _].
  apply Forall_app in Hq as [_ Hq]. apply Forall_cons_1 in Hq as [[=] _].
Qed.

(** X8. The feeder reads the input in order, and the keys it has
    delivered to the loop, followed by the one it still holds and by the
    keys not read yet, are the keys of the input: no key is lost,
    repeated or overtaken. *)
Theorem keys_delivered_in_order p raw keys sched s :
  Start p raw keys sched = Some s ->
  reads (trace s) ++ stdin s = keys /\
  feeder_keys (trace s) ++ feeder_pending (feeder s) ++ map fst (stdin s)
  = map fst keys.
Proof.
  intros Hrun. destruct (keys_in_order_Start _ _ _ _ _ Hrun) as [Hin Hout].
  split; [exact Hin|].
  by rewrite app_assoc, Hout, <- map_app, Hin.
Qed.



Lemma updates_app tr1 tr2 :
  updates (tr1 ++ tr2) = updates tr1 ++ updates tr2.
Proof.
  induction tr1 as [|ev tr1 IH]; [reflexivity|].
  destruct ev; cbn; by rewrite ?IH.
Qed.

Lemma updates_EvTerm (ops : list TermOp) :
  updates (map EvTerm ops : list Event) = [].
Proof. induction ops; cbn; auto. Qed.

Lemma transitions_app p model (msgs1 msgs2 : list (Msg AppMsg Key)) :
  transitions p model (msgs1 ++ msgs2)
  = transitions p model msgs1
    ++ transitions p (fold_left (transition p) msgs1 model) msgs2.
Proof.
  revert model. induction msgs1 as [|msg msgs1 IH]; intros model;
    [reflexivity|].
  cbn. by rewrite IH.
Qed.

Lemma updates_follow_step p t s s' :
  wf s -> model_is_fold p s -> step t s = Some s' ->
  updates_follow p s -> updates_follow p s'.
Proof.
  intros Hwf (Hupd & Hinit & Hfold) H Hinv.
  destruct s as [p0 m fd d tk dn ty inp tr].
  step_inv H; unfold updates_follow in *; cbn in *.
  all: rewrite ?updates_app, ?updates_EvTerm, ?delivered_app,
         ?delivered_EvTerm, ?List.filter_app, ?transitions_app,
         ?app_nil_r; cbn.
  all: rewrite ?app_nil_r; try done.
  all: by rewrite Hinv, <- (Hfold _ eq_refl).
Qed.

Lemma model_is_fold_Start p raw keys sched s :
  Start p raw keys sched = Some s -> wf s /\ model_is_fold p s.
Proof.
  unfold Start.
  apply (run_invariant (fun s => wf s /\ model_is_fold p s)).
  - intros t s1 s2 [Hwf Hinv] Hstep. split.
    + eapply wf_step; eassumption.
    + eapply model_is_fold_step; eassumption.
  - split; [apply wf_Start_state|]. repeat split. discriminate.
Qed.

(** X9. [update] has been called exactly once for each ordinary message
    delivered to the loop, in the order of delivery and with the model
    the earlier messages led to; for no other message, and never
    twice. *)
Theorem updates_follow_deliveries p raw keys sched s :
  Start p raw keys sched = Some s ->
  updates (trace s)
  = transitions p (fst (init p ()))
      (List.filter ordinary (delivered (trace s))).
Proof.
  intros Hrun.
  enough (Hinv : (wf s /\ model_is_fold p s) /\ updates_follow p s)
    by (apply Hinv).
  revert Hrun. unfold Start.
  apply (run_invariant
           (fun s => (wf s /\ model_is_fold p s) /\ updates_follow p s)).
  - intros t s1 s2 [[Hwf Hfold] Hinv] Hstep. split_and!.
    + eapply wf_step; eassumption.
    + eapply model_is_fold_step; eassumption.
    + eapply updates_follow_step; eassumption.
  - split_and!; [apply wf_Start_state|repeat split; discriminate|done].
Qed.

Lemma written_app tr1 tr2 :
  written (tr1 ++ tr2) = written tr1 ++ written tr2.
Proof.
  induction tr1 as [|ev tr1 IH]; [reflexivity|].
  destruct ev as [| | |[]| | | | | | |]; cbn; by rewrite ?IH.
Qed.

Lemma written_render (q : Program) (model : Model) :
  written (map EvTerm (snd (render q model)) : list Event)
  = if String.eqb (view q model) (currentRender q) then []
    else [Strings.Replace (view q model) LF CRLF].
Proof.
  unfold render. destruct (String.eqb _ _); [reflexivity|].
  cbn [snd]. by destruct (Nat.ltb _ _).
Qed.

Lemma last_cons_default {A} (a d : A) (l : list A) :
  List.last (a :: l) d = List.last l a.
Proof.
  revert a d. induction l as [|b l IH]; intros a d; [reflexivity|].
  change (List.last (a :: b :: l) d) with (List.last (b :: l) d).
  by rewrite !IH.
Qed.

Lemma frames_snoc (cache v : string) (views : list string) :
  frames cache (views ++ [v])
  = frames cache views
    ++ if String.eqb v (List.last views cache) then []
       else [Strings.Replace v LF CRLF].
Proof.
  revert cache. induction views as [|v0 views IH]; intros cache.
  - cbn. by destruct (String.eqb v cache).
  - rewrite last_cons_default. cbn [app frames].
    destruct (String.eqb_spec v0 cache) as [->|_]; by rewrite IH.
Qed.

Lemma models_from_snoc p model (msgs : list (Msg AppMsg Key)) msg :
  models_from p model (msgs ++ [msg])
  = models_from p model msgs
    ++ [fold_left (transition p) (msgs ++ [msg]) model].
Proof.
  revert model. induction msgs as [|msg0 msgs IH]; intros model;
    [reflexivity|].
  cbn [app models_from fold_left]. rewrite IH.
  by destruct msgs.
Qed.

Lemma models_from_last p model (msgs : list (Msg AppMsg Key)) :
  models_from p model msgs
  = List.removelast (models_from p model msgs)
    ++ [fold_left (transition p) msgs model].
Proof.
  induction msgs as [|msg msgs _] using rev_ind; [reflexivity|].
  by rewrite models_from_snoc, List.removelast_last.
Qed.

Lemma frames_follow_render p (q q' : Program) model ops tr
    (done_ : list Model) :
  render q model = (q', ops) ->
  view q = view p ->
  written tr = frames (currentRender p) (map (view p) done_) ->
  currentRender q = List.last (map (view p) done_) (currentRender p) ->
  written (tr ++ map EvTerm ops)
  = frames (currentRender p) (map (view p) (done_ ++ [model])) /\
  currentRender q'
  = List.last (map (view p) (done_ ++ [model])) (currentRender p).
Proof.
  intros Hr Hview Hw Hc.
  pose proof (written_render q model) as Hwr.
  pose proof (render_cache q model) as Hcache.
  rewrite Hr in Hwr, Hcache. cbn [fst snd] in Hwr, Hcache.
  rewrite map_app. cbn [map]. split.
  - by rewrite written_app, frames_snoc, Hwr, Hw, Hview, Hc.
  - by rewrite List.last_last, Hcache, Hview.
Qed.

Lemma frames_follow_step p t s s' :
  tty s = None ->
  wf s -> model_is_fold p s -> prog_fixed p s -> step t s = Some s' ->
  frames_follow p s -> frames_follow p s'.
Proof.
  intros Hty Hwf (_ & Hinit & Hfold) (_ & _ & Hview) H Hinv.
  destruct s as [p0 m fd d tk dn ty inp tr].
  step_inv H; unfold frames_follow, rendered, wf in *; cbn in *.
  all: rewrite ?delivered_app, ?delivered_EvTerm, ?List.filter_app,
         ?app_nil_r; cbn.
  all: rewrite ?models_from_snoc, ?List.removelast_last.
  all: try (rewrite written_app; cbn; rewrite app_nil_r).
  all: try done.
  all: try (by destruct Hwf as (_ & _ & _ & _ & _ & ->)).
  all: rewrite (models_from_last p (fst (init p ()))), <- (Hfold _ eq_refl).
  all: destruct Hinv as [Hw Hc]; by eapply frames_follow_render.
Qed.

(** X10. When raw mode was entered, the frames [Start] has written are
    those that rendering the models it went through, one after the other,
    writes: the view of each model with its newlines normalised, unless
    it equals the view of the model before it (for the first one, the
    cache [Start] found), which is skipped.  A model whose render is
    still due is not counted. *)
Theorem frames_follow_models p keys sched s :
  Start p None keys sched = Some s ->
  rendering (main s) = true ->
  written (trace s)
  = frames (currentRender p) (map (view p) (rendered p s)).
Proof.
  intros Hrun Hmain.
  enough (Hinv : ((wf s /\ model_is_fold p s) /\ prog_fixed p s
                  /\ tty s = None) /\ frames_follow p s).
  { destruct Hinv as [_ Hinv]. unfold frames_follow in Hinv.
    rewrite Hmain in Hinv. apply Hinv. }
  revert Hrun. unfold Start.
  apply (run_invariant
           (fun s => ((wf s /\ model_is_fold p s) /\ prog_fixed p s
                      /\ tty s = None) /\ frames_follow p s)).
  - intros t s1 s2 [[[Hwf Hfold] [Hfix Hty]] Hinv] Hstep. split_and!.
    + eapply wf_step; eassumption.
    + eapply model_is_fold_step; eassumption.
    + eapply prog_fixed_step; eassumption.
    + by rewrite (tty_step _ _ _ Hstep).
    + eapply frames_follow_step; eassumption.
  - by split_and!.
Qed.


Lemma count_ev_app (P : Event -> bool) tr1 tr2 :
  count_ev P (tr1 ++ tr2) = count_ev P tr1 + count_ev P tr2.
Proof. unfold count_ev. by rewrite List.filter_app, length_app. Qed.

Lemma count_ev_EvTerm (P : Event -> bool) (ops : list TermOp) :
  (forall op, P (EvTerm op) = false) ->
  count_ev P (map EvTerm ops) = 0.
Proof.
  intros HP. unfold count_ev. induction ops; cbn; rewrite ?HP; auto.
Qed.

Lemma count_task_app (P : Task AppMsg Key -> bool) tk1 tk2 :
  count_task P (tk1 ++ tk2) = count_task P tk1 + count_task P tk2.
Proof. unfold count_task. by rewrite List.filter_app, length_app. Qed.

Lemma count_task_insert (P : Task AppMsg Key -> bool) tk i x y :
  tk !! i = Some x ->
  count_task P (<[i:=y]> tk) + Nat.b2n (P x)
  = count_task P tk + Nat.b2n (P y).
Proof.
  unfold count_task. revert i.
  induction tk as [|z tk IH]; intros [|i] Hi; simplify_eq/=.
  - destruct (P x), (P y); cbn; lia.
  - specialize (IH _ Hi). destruct (P z); cbn; lia.
Qed.

#[local] Arguments count_ev : simpl never.
#[local] Arguments count_task : simpl never.

Lemma tasks_accounted_step t s s' :
  step t s = Some s' -> tasks_accounted s -> tasks_accounted s'.
Proof.
  intros H (Hgo & Hcall & Hcmd). destruct s as [p0 m fd d tk dn ty inp tr].
  step_inv H; unfold tasks_accounted in *; cbn in *; try done.
  all: try match goal with
           | Hi : _ !! ?i = Some ?x |- context [<[?i := ?y]> ?l] =>
               let Hl := fresh "Hl" in
               assert (Hl : l !! i = Some x)
                 by (first [exact Hi | by apply lookup_app_l_Some]);
               pose proof (count_task_insert at_call l i x y Hl);
               pose proof (count_task_insert at_send_msg l i x y Hl);
               pose proof (count_task_insert panicked l i x y Hl)
           end.
  all: rewrite ?count_ev_app, ?count_task_app, ?count_ev_EvTerm in * by done.
  all: unfold count_ev, count_task in *; cbn in *; lia.
Qed.

Lemma count_task_panicked (tk : list (Task AppMsg Key)) :
  (forall i, tk !! i <> Some TPanic) -> count_task panicked tk = 0.
Proof.
  unfold count_task. induction tk as [|x tk IH]; intros Hno; [reflexivity|].
  cbn. destruct x; cbn; try (apply IH; intros i; apply (Hno (S i))).
  by destruct (Hno 0).
Qed.

(** X11. Commands are neither run twice nor answered for without a run:
    the tasks the dispatcher started are those that have called their
    command and those still about to; the calls made are those whose
    result the loop has received and those whose task still waits to
    deliver it; and no more tasks were started than commands received. *)
Theorem commands_accounted p raw keys sched s :
  Start p raw keys sched = Some s ->
  count_ev is_go (trace s)
  = count_ev is_call (trace s) + count_task at_call (tasks s) /\
  count_ev is_call (trace s)
  = count_ev is_task_msg (trace s) + count_task at_send_msg (tasks s) /\
  count_ev is_go (trace s) <= count_ev is_cmd (trace s).
Proof.
  intros Hrun.
  assert (Hinv : tasks_accounted s).
  { revert Hrun. apply (run_invariant tasks_accounted); [|done].
    intros t s1 s2 Hinv Hstep. eapply tasks_accounted_step; eassumption. }
  destruct Hinv as (Hgo & Hcall & Hcmd).
  destruct (only_funcs_run_Start _ _ _ _ _ Hrun) as (_ & _ & _ & Htk).
  rewrite count_task_panicked in Hcall; [auto with lia|].
  intros i Hi. exact (Htk _ _ Hi).
Qed.

Lemma dispatcher_gone_step t s s' :
  wf s -> dispatcher s = DReturned -> step t s = Some s' ->
  dispatcher s' = DReturned /\
  List.filter is_cmd (trace s') = List.filter is_cmd (trace s).
Proof.
  intros Hwf Hd H. destruct s as [p0 m fd d tk dn ty inp tr].
  step_inv H; unfold wf in *; cbn in *; try done.
  all: try (destruct Hwf as (? & _); done).
  all: try (destruct Hwf as (_ & ? & _); done).
  all: rewrite ?List.filter_app, ?app_nil_r; cbn; by rewrite ?app_nil_r.
Qed.

(** X12. The dispatcher returns only once [Start] is returning, and from
    then on no command is received any more: whatever is still sent on
    the commands channel stays there. *)
Theorem dispatcher_gone p raw keys sched s sched' s' :
  Start p raw keys sched = Some s ->
  dispatcher s = DReturned ->
  run sched' s = Some s' ->
  (exists r, main s = MDeferred r \/ main s = MReturned r) /\
  dispatcher s' = DReturned /\
  List.filter is_cmd (trace s') = List.filter is_cmd (trace s).
Proof.
  intros Hrun Hd Hrun'. pose proof (wf_Start _ _ _ _ _ Hrun) as Hwf. split.
  - unfold wf in Hwf. rewrite Hd in Hwf.
    destruct (main s); try (destruct Hwf as (_ & [=] & _); fail);
      try (destruct Hwf as ([=] & _); fail); eauto.
  - enough (Hinv : wf s' /\ dispatcher s' = DReturned /\
                   List.filter is_cmd (trace s')
                   = List.filter is_cmd (trace s)) by (apply Hinv).
    revert Hrun'.
    apply (run_invariant
             (fun s' => wf s' /\ dispatcher s' = DReturned /\
                        List.filter is_cmd (trace s')
                        = List.filter is_cmd (trace s))); [|done].
    intros t s1 s2 (Hwf1 & Hd1 & Htr1) Hstep.
    destruct (dispatcher_gone_step _ _ _ Hwf1 Hd1 Hstep) as [Hd2 Htr2].
    split_and!; [by eapply wf_step | done | congruence].
Qed.

Lemma goroutines_paired_step t s s' :
  wf s -> step t s = Some s' -> goroutines_paired s -> goroutines_paired s'.
Proof.
  intros Hwf H [Hfd Hdn]. destruct s as [p0 m fd d tk dn ty inp tr].
  step_inv H; unfold goroutines_paired, wf in *; cbn in *; try done.
  all: naive_solver.
Qed.

(** X14. The goroutines of [Start] live as the code starts and ends
    them.  Up to the initial render neither the feeder nor the
    dispatcher runs, nothing was read and [done] is open; while the loop
    runs the feeder is started, the dispatcher waits in its select and
    [done] is open; and [done] is closed exactly when the loop has ended,
    never when [initTerminal] failed. *)
Theorem Start_goroutines p raw keys sched s :
  Start p raw keys sched = Some s ->
  (starting (main s) = true ->
   feeder s = FIdle /\ dispatcher s = DIdle /\ done s = false /\
   reads (trace s) = []) /\
  (looping (main s) = true ->
   feeder s <> FIdle /\ dispatcher s = DSelect /\ done s = false) /\
  (done s = true <->
   raw = None /\ exists r, main s = MDeferred r \/ main s = MReturned r).
Proof.
  intros Hrun.
  pose proof (tty_Start _ _ _ _ _ Hrun) as Hty.
  assert (Hinv : wf s /\ goroutines_paired s).
  { revert Hrun. unfold Start.
    apply (run_invariant (fun s => wf s /\ goroutines_paired s)).
    - intros t s1 s2 [Hwf Hinv] Hstep. split.
      + eapply wf_step; eassumption.
      + eapply goroutines_paired_step; eassumption.
    - by split. }
  destruct Hinv as [Hwf [Hfd Hdn]]. unfold wf in Hwf. rewrite <- Hty.
  destruct s as [p0 m fd d tk dn ty inp tr]. cbn in *.
  clear Hrun. destruct m; cbn; split_and!; try done.
  all: destruct dn; try (intros _); destruct_or?; destruct_and?;
       simplify_eq/=; try done.
  all: naive_solver.
Qed.

End StartFacts.

(** ** What [render] writes *)

Section RenderOutput.

Context {Model AppMsg Key : Type}.
Implicit Types (p : Program Model AppMsg Key) (model : Model).

Lemma HasPrefix_empty (s : string) : Strings.HasPrefix s "" = true.
Proof. by destruct s. Qed.

Lemma Replace_cons (c : ascii) (s : string) :
  Strings.Replace (String c s) LF CRLF
  = if Ascii.eqb "010" c
    then String "013" (String "010" (Strings.Replace s LF CRLF))
    else String c (Strings.Replace s LF CRLF).
Proof.
  unfold Strings.Replace. cbn -[Ascii.eqb].
  rewrite HasPrefix_empty, andb_true_r. reflexivity.
Qed.

Lemma Count_cons_no_cr (c : ascii) (s : string) :
  Ascii.eqb "013" c = false ->
  Strings.Count (String c s) CRLF = Strings.Count s CRLF.
Proof. intros Hc. unfold Strings.Count. cbn -[Ascii.eqb]. by rewrite Hc. Qed.

Lemma Count_cons_no_lf (c c' : ascii) (s : string) :
  Ascii.eqb "010" c' = false ->
  Strings.Count (String c (String c' s)) CRLF
  = Strings.Count (String c' s) CRLF.
Proof.
  intros Hc. unfold Strings.Count. cbn -[Ascii.eqb].
  by rewrite Hc, andb_false_r.
Qed.

Lemma Replace_lf_follows_cr (s : string) b :
  lf_follows_cr b (Strings.Replace s LF CRLF) = true.
Proof.
  revert b. induction s as [|c s IH]; intros b; [reflexivity|].
  rewrite Replace_cons.
  destruct (Ascii.eqb_spec "010" c) as [<-|Hc]; cbn -[Ascii.eqb].
  - apply IH.
  - destruct (Ascii.eqb_spec c "010") as [->|_]; [done|]. apply IH.
Qed.

Lemma Count_no_cr (s : string) :
  has_byte "013" s = false -> Strings.Count s CRLF = 0.
Proof.
  induction s as [|c s IH]; [reflexivity|].
  intros H. cbn -[Ascii.eqb] in H. apply orb_false_iff in H as [Hc Hs].
  rewrite Count_cons_no_cr by exact Hc. by apply IH.
Qed.

Lemma Count_has_cr (s : string) :
  0 < Strings.Count s CRLF -> has_byte "013" s = true.
Proof.
  intros Hpos. destruct (has_byte "013" s) eqn:Hcr; [reflexivity|].
  rewrite (Count_no_cr _ Hcr) in Hpos. lia.
Qed.

Lemma Count_no_lf (s : string) :
  has_byte "010" s = false -> Strings.Count s CRLF = 0.
Proof.
  induction s as [|c s IH]; [reflexivity|].
  intros H. cbn -[Ascii.eqb] in H. apply orb_false_iff in H as [Hc Hs].
  destruct s as [|c' s].
  { unfold Strings.Count. cbn -[Ascii.eqb]. by rewrite andb_false_r. }
  pose proof Hs as Hs'. cbn -[Ascii.eqb] in Hs'.
  apply orb_false_iff in Hs' as [Hc' _].
  rewrite Count_cons_no_lf by exact Hc'. by apply IH.
Qed.

Lemma Replace_no_lf (s : string) :
  has_byte "010" s = false -> Strings.Replace s LF CRLF = s.
Proof.
  induction s as [|c s IH]; [reflexivity|].
  intros H. cbn -[Ascii.eqb] in H. apply orb_false_iff in H as [Hc Hs].
  rewrite Replace_cons, Hc. by rewrite IH.
Qed.

(** X1. In every frame [render] writes, each newline follows a carriage
    return. *)
Theorem render_writes_no_bare_newline
    p model (s : string) :
  In (WriteString s) (snd (render p model)) ->
  lf_follows_cr false s = true.
Proof.
  unfold render. destruct (String.eqb _ _); cbn [snd]; [intros []|].
  intros [Hin|Hin]%in_app_iff.
  - destruct (Nat.ltb _ _); [|destruct Hin].
    destruct Hin as [Hin|[]]. discriminate.
  - destruct Hin as [[= <-]|[]]. apply Replace_lf_follows_cr.
Qed.

(** X2. [render] never clears zero lines, and what it clears is the number
    of carriage-return newlines of the frame it is given: a frame without
    a carriage return is written without clearing. *)
Theorem render_clears_lines p model (n : nat) :
  In (ClearLines n) (snd (render p model)) ->
  0 < n /\ n = Strings.Count (view p model) CRLF /\
  has_byte "013" (view p model) = true.
Proof.
  unfold render. destruct (String.eqb _ _); cbn [snd]; [intros []|].
  intros [Hin|Hin]%in_app_iff.
  - cbn [currentRender set_currentRender] in Hin.
    destruct (Nat.ltb_spec 0 (Strings.Count (view p model) CRLF))
      as [Hpos|_]; [|destruct Hin].
    destruct Hin as [[= <-]|[]]. auto using Count_has_cr.
  - destruct Hin as [Hin|[]]. discriminate.
Qed.

(** X3. A frame without a newline that differs from the cached frame is
    written as it is, and nothing is cleared. *)
Theorem render_plain_frame p model :
  has_byte "010" (view p model) = false ->
  view p model <> currentRender p ->
  render p model
  = (set_currentRender p (view p model), [WriteString (view p model)]).
Proof.
  intros Hlf Hne. rewrite render_changed by exact Hne.
  by rewrite (Replace_no_lf _ Hlf), (Count_no_lf _ Hlf).
Qed.

Lemma Replace_crlf_cons (c : ascii) (s : string) :
  Strings.HasPrefix s LF = false ->
  Strings.Replace (String c s) CRLF LF
  = String c (Strings.Replace s CRLF LF).
Proof.
  intros Hs. unfold Strings.Replace. cbn [Strings.replace_from].
  change (Strings.HasPrefix (String c s) CRLF)
    with (Ascii.eqb "013" c && Strings.HasPrefix s LF).
  by rewrite Hs, andb_false_r.
Qed.

Lemma Replace_not_lf_first (s : string) :
  Strings.HasPrefix (Strings.Replace s LF CRLF) LF = false.
Proof.
  destruct s as [|c s]; [reflexivity|]. rewrite Replace_cons.
  destruct (Ascii.eqb "010" c) eqn:Hc; cbn -[Ascii.eqb];
    [reflexivity | by rewrite Hc].
Qed.

(** Taking the carriage returns out again gives the frame back. *)
Lemma Replace_round_trip (s : string) :
  Strings.Replace (Strings.Replace s LF CRLF) CRLF LF = s.
Proof.
  induction s as [|c s IH]; [reflexivity|]. rewrite Replace_cons.
  destruct (Ascii.eqb_spec "010" c) as [<-|Hc].
  - unfold Strings.Replace in *. cbn. by rewrite HasPrefix_empty, IH.
  - rewrite Replace_crlf_cons by apply Replace_not_lf_first.
    by rewrite IH.
Qed.

(** X13. What [render] writes is the view and nothing else: replacing
    each carriage-return newline of a written frame by a newline gives
    the view of the model back. *)
Theorem render_writes_the_view p model (s : string) :
  In (WriteString s) (snd (render p model)) ->
  Strings.Replace s CRLF LF = view p model.
Proof.
  unfold render. destruct (String.eqb _ _); cbn [snd]; [intros []|].
  intros [Hin|Hin]%in_app_iff.
  - destruct (Nat.ltb _ _); [|destruct Hin].
    destruct Hin as [Hin|[]]. discriminate.
  - destruct Hin as [[= <-]|[]]. apply Replace_round_trip.
Qed.

End RenderOutput.


(** ** The theorems at work on the demo program *)

(** The state a goal is about. *)
Ltac with_state k :=
  lazymatch goal with
  | |- context [trace ?s] => k s
  | |- context [main ?s] => k s
  end.

(** The scenario of two increments and a quit: [Start] returns nil and
    the last frame is "2". *)
Example counter_increment_increment_quit :
  exists s,
    Start Demo.counter None [Demo.ok 0; Demo.ok 0; Demo.ok 1]
      Demo.sched_quit = Some s /\
    main s = MReturned None /\
    currentRender (prog s) = Demo.digit 2.
Proof. eexists. split; [vm_compute; reflexivity|]. split; reflexivity. Qed.

Lemma Start_restores_terminal_witness :
  exists s,
    Start Demo.counter None [Demo.ok 0; Demo.ok 0; Demo.ok 1]
      Demo.sched_quit = Some s /\
    main s = MReturned None /\
    forall r,
      main s = MReturned r ->
      exists pre post,
        trace s = pre ++ [EvRestoreTerminal; EvReturn r] ++ post /\
        restores pre = 0 /\ restores post = 0.
Proof.
  eexists. split; [vm_compute; reflexivity|]. split; [reflexivity|].
  with_state ltac:(fun s =>
    pose proof (Start_restores_terminal Demo.counter None
                  [Demo.ok 0; Demo.ok 0; Demo.ok 1] Demo.sched_quit s)
      as Hthm);
    apply Hthm; vm_compute; reflexivity.
Defined.

Lemma Start_model_is_fold_witness :
  exists s,
    Start Demo.counter None [Demo.ok 0; Demo.ok 0; Demo.ok 1]
      (Demo.sched_increment ++ [TFeeder; TFeeder; TMain; TMain]) = Some s /\
    main_model (main s) = Some 2 /\
    2 = fold_left (transition Demo.counter)
          (List.filter ordinary (delivered (trace s)))
          (fst (init Demo.counter ())).
Proof.
  eexists. split; [vm_compute; reflexivity|]. split; [reflexivity|].
  with_state ltac:(fun s =>
    pose proof (Start_model_is_fold Demo.counter None
           [Demo.ok 0; Demo.ok 0; Demo.ok 1]
           (Demo.sched_increment ++ [TFeeder; TFeeder; TMain; TMain]) s 2) as Hthm);
    apply Hthm; vm_compute; reflexivity.
Defined.

Lemma quit_terminates_Start_witness :
  exists s,
    Start Demo.counter None [Demo.ok 1] Demo.sched_key_quit = Some s /\
    trace s = Demo.trace_key_quit ++ EvMsg (TTask 0) quitMsg
                :: Demo.trace_return /\
    Forall (fun ev => is_update ev = false) Demo.trace_return /\
    (main s = MReturned None \/
     (main s = MDeferred None /\
      exists s', step TMain s = Some s' /\ main s' = MReturned None /\
                 trace s' = trace s ++ [EvRestoreTerminal; EvReturn None])).
Proof.
  eexists. split; [vm_compute; reflexivity|]. split; [reflexivity|].
  with_state ltac:(fun s =>
    pose proof (quit_terminates_Start Demo.counter None [Demo.ok 1]
           Demo.sched_key_quit s Demo.trace_key_quit (TTask 0)
           Demo.trace_return) as Hthm);
    apply Hthm; vm_compute; reflexivity.
Defined.


(** C3, as stated, fails: when the transition function returns the nil
    command, the loop hands it to the dispatcher all the same. *)
Lemma nil_command_reaches_dispatcher :
  ~ (forall sched s from cmd,
       Start Demo.counter None [Demo.ok 0] sched = Some s ->
       In (EvCmd from cmd) (trace s) ->
       cmd <> nilCmd).
Proof.
  intros H.
  assert (Hs : exists s,
             Start Demo.counter None [Demo.ok 0] Demo.sched_increment
             = Some s /\ In (EvCmd TMain nilCmd) (trace s)).
  { eexists. split; [vm_compute; reflexivity|]. cbn. auto 10. }
  destruct Hs as (s & Hs & Hin). exact (H _ _ _ _ Hs Hin eq_refl).
Qed.

Lemma nil_command_never_runs_witness :
  exists s,
    Start Demo.counter None [Demo.ok 2] Demo.sched_batch = Some s /\
    (forall from cmd,
       In (EvGo from cmd) (trace s) ->
       cmd <> nilCmd /\ In (EvCmd from cmd) (trace s)) /\
    (forall i cmd,
       In (EvCall i cmd) (trace s) ->
       cmd <> nilCmd /\ exists from, In (EvGo from cmd) (trace s)) /\
    (forall i msg,
       In (EvMsg (TTask i) msg) (trace s) ->
       exists f, msg = f () /\ In (EvCall i (funcCmd f)) (trace s)) /\
    (forall i, tasks s !! i <> Some TPanic).
Proof.
  eexists. split; [vm_compute; reflexivity|].
  with_state ltac:(fun s =>
    pose proof (nil_command_never_runs Demo.counter None [Demo.ok 2]
                  Demo.sched_batch s) as Hthm);
    apply Hthm; vm_compute; reflexivity.
Defined.

Lemma batch_fans_out_witness :
  exists s,
    Start Demo.counter None [Demo.ok 2] Demo.sched_batch = Some s /\
    Forall (fun ev => is_batch_update ev = false) (trace s) /\
    loop_gos Demo.trace_hand_overs
    = List.filter is_func (loop_cmds Demo.trace_hand_overs) /\
    (loop_cmds Demo.trace_hand_overs = Demo.batch3 \/
     exists model cmd rest,
       main s = MBatch model (cmd :: rest) /\
       loop_cmds Demo.trace_hand_overs ++ cmd :: rest = Demo.batch3 /\
       exists s',
         step TMain s = Some s' /\ main s' = MBatch model rest /\
         trace s' = trace s ++ hand_over TMain cmd).
Proof.
  eexists. split; [vm_compute; reflexivity|].
  with_state ltac:(fun s =>
    pose proof (batch_fans_out Demo.counter None [Demo.ok 2]
                  Demo.sched_batch s Demo.trace_key_batch (TTask 0)
                  Demo.batch3 Demo.trace_hand_overs) as Hthm);
    apply Hthm; vm_compute; reflexivity.
Defined.

(** ** The further properties at work on the demo programs *)

Lemma render_writes_no_bare_newline_witness :
  In (WriteString (String.concat "" ["a"; CRLF; "b"]))
    (snd (render Demo.lines 0)) /\
  lf_follows_cr false (String.concat "" ["a"; CRLF; "b"]) = true.
Proof.
  assert (Hin : In (WriteString (String.concat "" ["a"; CRLF; "b"]))
                  (snd (render Demo.lines 0))) by (left; reflexivity).
  split; [exact Hin|].
  exact (render_writes_no_bare_newline Demo.lines 0 _ Hin).
Defined.

Lemma render_clears_lines_witness :
  In (ClearLines 1) (snd (render Demo.crlf_lines 0)) /\
  0 < 1 /\ 1 = Strings.Count (view Demo.crlf_lines 0) CRLF /\
  has_byte "013" (view Demo.crlf_lines 0) = true.
Proof.
  assert (Hin : In (ClearLines 1) (snd (render Demo.crlf_lines 0)))
    by (left; reflexivity).
  split; [exact Hin|].
  exact (render_clears_lines Demo.crlf_lines 0 1 Hin).
Defined.

Lemma render_plain_frame_witness :
  render Demo.counter 4
  = (set_currentRender Demo.counter (view Demo.counter 4),
     [WriteString (view Demo.counter 4)]).
Proof.
  apply (render_plain_frame Demo.counter 4); [reflexivity | discriminate].
Defined.

Lemma Start_cache_in_sync_witness :
  exists s,
    Start Demo.counter None [Demo.ok 0; Demo.ok 0; Demo.ok 1]
      Demo.sched_increment = Some s /\
    main s = MSelect 1 /\
    currentRender (prog s) = view Demo.counter 1.
Proof.
  eexists. split; [vm_compute; reflexivity|]. split; [reflexivity|].
  lazymatch goal with
  | |- context [prog ?s] =>
      pose proof (Start_cache_in_sync Demo.counter None
                    [Demo.ok 0; Demo.ok 0; Demo.ok 1] Demo.sched_increment
                    s 1) as Hthm
  end.
  apply Hthm; [vm_compute; reflexivity | left; reflexivity].
Defined.

Lemma loop_blocks_only_in_select_witness :
  exists s,
    Start Demo.counter None [Demo.ok 0] Demo.sched_increment = Some s /\
    ((exists s', step TMain s = Some s') \/
     (exists model, main s = MSelect model) \/
     (exists r, main s = MReturned r)).
Proof.
  eexists. split; [vm_compute; reflexivity|].
  with_state ltac:(fun s =>
    pose proof (loop_blocks_only_in_select Demo.counter None [Demo.ok 0]
                  Demo.sched_increment s) as Hthm);
    apply Hthm; vm_compute; reflexivity.
Defined.

Lemma Start_return_value_witness :
  exists s,
    Start Demo.counter None [(0, Some 9)] Demo.sched_read_error = Some s /\
    main s = MReturned (Some 9) /\
    (@None nat = Some 9 \/
     (@None nat = None /\
      exists k, In (k, Some 9) [(0, Some 9)] /\
                In (EvReadKey k (Some 9)) (trace s))).
Proof.
  eexists. split; [vm_compute; reflexivity|]. split; [reflexivity|].
  with_state ltac:(fun s =>
    pose proof (Start_return_value Demo.counter None [(0, Some 9)]
                  Demo.sched_read_error s (Some 9)) as Hthm);
    apply Hthm; vm_compute; reflexivity.
Defined.

Lemma nothing_after_return_witness :
  exists s,
    Start Demo.counter None [Demo.ok 1; Demo.ok 0]
      Demo.sched_quit_then_read = Some s /\
    main s = MReturned None /\
    Forall (fun ev => after_return ev = true) Demo.trace_read_after.
Proof.
  eexists. split; [vm_compute; reflexivity|].
  with_state ltac:(fun s =>
    pose proof (nothing_after_return Demo.counter None
                  [Demo.ok 1; Demo.ok 0] Demo.sched_quit_then_read s
                  (Demo.trace_key_quit
                   ++ [EvMsg (TTask 0) quitMsg; EvRestoreTerminal])
                  None Demo.trace_read_after) as Hthm);
    apply Hthm; vm_compute; reflexivity.
Defined.

Lemma keys_delivered_in_order_witness :
  exists s,
    Start Demo.counter None [Demo.ok 0; Demo.ok 0; Demo.ok 1]
      Demo.sched_increment = Some s /\
    reads (trace s) ++ stdin s = [Demo.ok 0; Demo.ok 0; Demo.ok 1] /\
    feeder_keys (trace s) ++ feeder_pending (feeder s) ++ map fst (stdin s)
    = map fst [Demo.ok 0; Demo.ok 0; Demo.ok 1].
Proof.
  eexists. split; [vm_compute; reflexivity|].
  with_state ltac:(fun s =>
    pose proof (keys_delivered_in_order Demo.counter None
                  [Demo.ok 0; Demo.ok 0; Demo.ok 1] Demo.sched_increment s)
      as Hthm);
    apply Hthm; vm_compute; reflexivity.
Defined.

Lemma updates_follow_deliveries_witness :
  exists s,
    Start Demo.counter None [Demo.ok 0; Demo.ok 0; Demo.ok 1]
      Demo.sched_quit = Some s /\
    updates (trace s)
    = transitions Demo.counter (fst (init Demo.counter ()))
        (List.filter ordinary (delivered (trace s))).
Proof.
  eexists. split; [vm_compute; reflexivity|].
  with_state ltac:(fun s =>
    pose proof (updates_follow_deliveries Demo.counter None
                  [Demo.ok 0; Demo.ok 0; Demo.ok 1] Demo.sched_quit s)
      as Hthm);
    apply Hthm; vm_compute; reflexivity.
Defined.

Lemma frames_follow_models_witness :
  exists s,
    Start Demo.counter None [Demo.ok 0; Demo.ok 0; Demo.ok 1]
      Demo.sched_quit = Some s /\
    written (trace s) = [Demo.digit 0; Demo.digit 1; Demo.digit 2] /\
    written (trace s)
    = frames (currentRender Demo.counter)
        (map (view Demo.counter) (rendered Demo.counter s)).
Proof.
  eexists. split; [vm_compute; reflexivity|]. split; [reflexivity|].
  with_state ltac:(fun s =>
    pose proof (frames_follow_models Demo.counter
                  [Demo.ok 0; Demo.ok 0; Demo.ok 1] Demo.sched_quit s)
      as Hthm);
    apply Hthm; vm_compute; reflexivity.
Defined.

Lemma commands_accounted_witness :
  exists s,
    Start Demo.counter None [Demo.ok 2] Demo.sched_batch = Some s /\
    count_ev is_go (trace s)
    = count_ev is_call (trace s) + count_task at_call (tasks s) /\
    count_ev is_call (trace s)
    = count_ev is_task_msg (trace s) + count_task at_send_msg (tasks s) /\
    count_ev is_go (trace s) <= count_ev is_cmd (trace s).
Proof.
  eexists. split; [vm_compute; reflexivity|].
  with_state ltac:(fun s =>
    pose proof (commands_accounted Demo.counter None [Demo.ok 2]
                  Demo.sched_batch s) as Hthm);
    apply Hthm; vm_compute; reflexivity.
Defined.

Lemma dispatcher_gone_witness :
  exists s s',
    Start Demo.counter None [Demo.ok 1; Demo.ok 0]
      Demo.sched_quit_dispatcher = Some s /\
    dispatcher s = DReturned /\
    run [TFeeder] s = Some s' /\
    (exists r, main s = MDeferred r \/ main s = MReturned r) /\
    dispatcher s' = DReturned /\
    List.filter is_cmd (trace s') = List.filter is_cmd (trace s).
Proof.
  eexists. eexists. split; [vm_compute; reflexivity|].
  split; [reflexivity|]. split; [vm_compute; reflexivity|].
  lazymatch goal with
  | |- context [List.filter is_cmd (trace ?s') = List.filter is_cmd (trace ?s)] =>
      pose proof (dispatcher_gone Demo.counter None [Demo.ok 1; Demo.ok 0]
                    Demo.sched_quit_dispatcher s [TFeeder] s') as Hthm
  end.
  apply Hthm; vm_compute; reflexivity.
Defined.

Lemma render_writes_the_view_witness :
  In (WriteString (String.concat "" ["a"; CRLF; "b"]))
    (snd (render Demo.lines 0)) /\
  Strings.Replace (String.concat "" ["a"; CRLF; "b"]) CRLF LF
  = view Demo.lines 0.
Proof.
  assert (Hin : In (WriteString (String.concat "" ["a"; CRLF; "b"]))
                  (snd (render Demo.lines 0))) by (left; reflexivity).
  split; [exact Hin|].
  exact (render_writes_the_view Demo.lines 0 _ Hin).
Defined.

Lemma Start_goroutines_witness :
  exists s,
    Start Demo.counter None [Demo.ok 0] Demo.sched_increment = Some s /\
    (starting (main s) = true ->
     feeder s = FIdle /\ dispatcher s = DIdle /\ done s = false /\
     reads (trace s) = []) /\
    (looping (main s) = true ->
     feeder s <> FIdle /\ dispatcher s = DSelect /\ done s = false) /\
    (done s = true <->
     @None nat = None /\
     exists r, main s = MDeferred r \/ main s = MReturned r).
Proof.
  eexists. split; [vm_compute; reflexivity|].
  with_state ltac:(fun s =>
    pose proof (Start_goroutines Demo.counter None [Demo.ok 0]
                  Demo.sched_increment s) as Hthm);
    apply Hthm; vm_compute; reflexivity.
Defined.
